(** * A persistent copy-on-write trie: [src/primer/trie.cpp]

    The three operations of [bustub::Trie] ([Get], [Put], [Remove]) are
    embedded over an explicit store of immutable nodes.  A
    [std::shared_ptr<const TrieNode>] is an optional address into the
    store, so that node identity, sharing between versions and the one
    mutation the code performs (on a freshly cloned node, through
    [const_cast]) are all visible in the model. *)

From Stdlib Require Import Ascii String.
From stdpp Require Import base option list gmap strings.

Set Default Proof Using "Type".

(** ** Outcomes *)

(** Dereferencing a null [shared_ptr] is undefined behaviour in C++; the
    model records it as [Fault] instead of guessing a result.  The same
    outcome is used for an address that is not in the store, which
    reference counting rules out for every store the program can build. *)
Inductive result (A : Type) : Type :=
  | Ok (a : A)
  | Fault.
Arguments Ok {A} a.
Arguments Fault {A}.

(** [result] is a monad; the sequencing notation [x ← r; k] is stdpp's. *)
Global Instance result_bind : MBind result := λ A B f r,
  match r with
  | Ok a => f a
  | Fault => Fault
  end.

Global Instance result_ret : MRet result := λ A a, Ok a.

(** ** Values and their run-time types *)

(** The template parameter [T] of [Get] and [Put].  The constructors are
    the five explicit instantiations at the end of [trie.cpp]. *)
Inductive value_type : Type :=
  | TUInt32
  | TUInt64
  | TString
  | TInteger
  | TMoveBlocked.

Global Instance value_type_eq_dec : EqDecision value_type.
Proof. solve_decision. Defined.

(** Modelled from the spec: the payload types are declared outside
    [trie.cpp]; a stored value is a payload tagged with the type it was
    instantiated at (spec, design notes: "store a type tag alongside an
    opaque payload").  [Integer] is [std::unique_ptr<uint32_t>], which may
    be null; [MoveBlocked] carries no data the trie looks at. *)
Inductive value : Type :=
  | VUInt32 (n : N)
  | VUInt64 (n : N)
  | VString (s : string)
  | VInteger (p : option N)
  | VMoveBlocked.

Definition type_of (v : value) : value_type :=
  match v with
  | VUInt32 _ => TUInt32
  | VUInt64 _ => TUInt64
  | VString _ => TString
  | VInteger _ => TInteger
  | VMoveBlocked => TMoveBlocked
  end.

(** ** Nodes and the store *)

Abbreviation addr := nat.

(** [std::shared_ptr<const TrieNode>]: [None] is [nullptr]. *)
Abbreviation ptr := (option addr).

(** Modelled from the spec: [TrieNode] and [TrieNodeWithValue<T>] are
    declared in [primer/trie.h], which is not part of the sources.
    Following the spec's data model, a branch node holds a mapping from a
    byte to a child reference, and a value node is a branch node that
    additionally holds one value.  [children_] is the
    [std::map<char, std::shared_ptr<const TrieNode>>]; a key can be bound
    to a null reference, which differs from the key being unbound.
    [value_] is a [std::shared_ptr<T>] to a value that nothing modifies;
    the node holds the value itself. *)
Inductive TrieNode : Type :=
  | Branch (children : gmap ascii ptr)
  | WithValue (children : gmap ascii ptr) (value_ : value).

Definition children_ (n : TrieNode) : gmap ascii ptr :=
  match n with
  | Branch ch => ch
  | WithValue ch _ => ch
  end.

Definition is_value_node_ (n : TrieNode) : bool :=
  match n with
  | Branch _ => false
  | WithValue _ _ => true
  end.

(** Modelled from the spec: [Clone] is the shallow structural copy of the
    node model, "same children mapping and same value reference, if any,
    but a new node identity".  The copy has the same fields; the new
    identity comes from [alloc]. *)
Definition Clone (n : TrieNode) : TrieNode := n.

(** [children_[ch] = child]: insert or overwrite one binding. *)
Definition set_child (n : TrieNode) (ch : ascii) (child : ptr) : TrieNode :=
  match n with
  | Branch m => Branch (<[ch := child]> m)
  | WithValue m v => WithValue (<[ch := child]> m) v
  end.

(** [children_.find(ch) == end() ? nullptr : children_.at(ch)] *)
Definition child_or_null (n : TrieNode) (ch : ascii) : ptr :=
  match children_ n !! ch with
  | None => None
  | Some p => p
  end.

(** The store: every node ever allocated, indexed by its address. *)
Abbreviation heap := (list TrieNode).

(** [make_shared] and [Clone]: a new node at a fresh address. *)
Definition alloc (h : heap) (n : TrieNode) : heap * addr :=
  (h ++ [n], length h).

(** [p->...]: reading through a pointer. *)
Definition deref (h : heap) (p : ptr) : result TrieNode :=
  match p with
  | None => Fault
  | Some a =>
      match h !! a with
      | Some n => Ok n
      | None => Fault
      end
  end.

(** A key is a [std::string_view]: a sequence of [char]. *)
Abbreviation key := (list ascii).

(** ** [Trie::Get] *)

(** [dynamic_cast<const TrieNodeWithValue<T> *>(node.get())] followed by
    the null test and [value_.get()]: a null pointer, a plain node and a
    value node of another type all give [nullptr]. *)
Definition dynamic_cast (T : value_type) (h : heap) (node : ptr)
  : result (option value) :=
  match node with
  | None => Ok None
  | Some a =>
      match h !! a with
      | None => Fault
      | Some (Branch _) => Ok None
      | Some (WithValue _ v) =>
          if decide (type_of v = T) then Ok (Some v) else Ok None
      end
  end.

(** [Get], started with [node = root_]: the loop over the bytes of the key,
    then the cast.  The loop body reads [node->children_] without a null
    test on [node] (line 20), and moves to a child that is bound in the
    mapping whether or not it is null (line 23). *)
Fixpoint Get (T : value_type) (h : heap) (node : ptr) (k : key)
  : result (option value) :=
  match k with
  | [] => dynamic_cast T h node
  | c :: k' =>
      n ← deref h node;
      match children_ n !! c with
      | None => Ok None
      | Some p => Get T h p k'
      end
  end.

(** ** [Trie::Put] *)

(** Step 1 of [Put] and of [Remove] (lines 43-48 and 82-87): the loop
    [for (; idx < key_size && cur_node; idx++)].  [rest] is the part of
    the key from [idx] on, so [idx < key_size] is [rest ≠ []] and
    [key[idx]] is its head.  Returns the final [idx], [node_stack] and
    [cur_node]. *)
Fixpoint walk (h : heap) (rest : key) (idx : nat)
    (node_stack : list ptr) (cur_node : ptr)
  : result (nat * list ptr * ptr) :=
  match rest, cur_node with
  | ch :: rest', Some _ =>
      n ← deref h cur_node;
      walk h rest' (S idx) (node_stack ++ [cur_node]) (child_or_null n ch)
  | _, _ => Ok (idx, node_stack, cur_node)
  end.

(** Step 2 of [Put], the leaf (lines 51-53): a value node that takes over
    the children of the node already at the key, if there is one. *)
Definition make_leaf (h : heap) (cur_node : ptr) (v : value)
  : result (heap * addr) :=
  match cur_node with
  | Some _ => n ← deref h cur_node; Ok (alloc h (WithValue (children_ n) v))
  | None => Ok (alloc h (WithValue ∅ v))
  end.

(** Step 2 of [Put], the loop [while (idx < key_size)] (lines 56-61):
    [key[--key_size]] runs through the unconsumed bytes from the last one
    back to [key[idx]], that is through [rev (drop idx key)], and each
    byte gets a new single-child node above the previous one. *)
Fixpoint wrap_suffix (h : heap) (rsuffix : list ascii) (child_node : ptr)
  : heap * ptr :=
  match rsuffix with
  | [] => (h, child_node)
  | ch :: rsuffix' =>
      let '(h', a) := alloc h (Branch {[ ch := child_node ]}) in
      wrap_suffix h' rsuffix' (Some a)
  end.

(** Step 3 of [Put] and of [Remove] (lines 65-69 and 99-103, the same
    loop): for [i] from [node_stack.size() - 1] down to [0], clone
    [node_stack[i]], bind [key[i]] to [child_node] in the clone, and go
    on with the clone as [child_node].  [rpath] lists the pairs
    [(node_stack[i], key[i])] in that order.  The result is the final
    [cur_node], which the loop leaves as it was when [node_stack] is
    empty. *)
Fixpoint copy_path (h : heap) (rpath : list (ptr * ascii))
    (cur_node child_node : ptr) : result (heap * ptr) :=
  match rpath with
  | [] => Ok (h, cur_node)
  | (p, ch) :: rpath' =>
      n ← deref h p;
      let '(h1, a) := alloc h (Clone n) in
      let h2 := alter (λ n', set_child n' ch child_node) a h1 in
      copy_path h2 rpath' (Some a) (Some a)
  end.

(** [Put] returns the new version's root; the store it returns extends the
    one it was given. *)
Definition Put (h : heap) (root_ : ptr) (k : key) (v : value)
  : result (heap * ptr) :=
  '(idx, node_stack, cur_node) ← walk h k 0 [] root_;
  '(h1, leaf_node) ← make_leaf h cur_node v;
  let '(h2, child_node) := wrap_suffix h1 (rev (drop idx k)) (Some leaf_node) in
  copy_path h2 (rev (zip node_stack k)) child_node child_node.

(** ** [Trie::Remove] *)

(** Step 2 of [Remove] (lines 94-95). *)
Definition make_end_node (h : heap) (n : TrieNode) : heap * ptr :=
  if decide (children_ n = ∅) then (h, None)
  else let '(h', a) := alloc h (Branch (children_ n)) in (h', Some a).

(** [return *this] is the version it was called on, in the same store.
    The test of line 89 is evaluated left to right, so [cur_node] is only
    read when it is not null. *)
Definition Remove (h : heap) (root_ : ptr) (k : key) : result (heap * ptr) :=
  '(idx, node_stack, cur_node) ← walk h k 0 [] root_;
  if decide (idx ≠ length k) then Ok (h, root_)
  else
    match cur_node with
    | None => Ok (h, root_)
    | Some _ =>
        n ← deref h cur_node;
        if negb (is_value_node_ n) then Ok (h, root_)
        else
          let '(h1, end_node) := make_end_node h n in
          copy_path h1 (rev (zip node_stack k)) cur_node end_node
    end.

(** ** Concrete keys and versions *)

Definition key_of (s : string) : key := list_ascii_of_string s.

(** The default-constructed [Trie()]: a null root, no nodes. *)
Definition empty_heap : heap := [].
Definition empty_root : ptr := None.

(** ** Well-formed stores *)

(** Reference counting keeps every node a pointer refers to alive: in a
    store the program can build, no pointer dangles. *)
Definition ptr_wf (h : heap) (p : ptr) : Prop :=
  ∀ a, p = Some a → a < length h.

Definition node_wf (h : heap) (n : TrieNode) : Prop :=
  ∀ c p, children_ n !! c = Some p → ptr_wf h p.

Definition heap_wf (h : heap) : Prop :=
  ∀ a n, h !! a = Some n → node_wf h n.

(** A version: a root in a store, nothing dangling. *)
Definition version_wf (h : heap) (root_ : ptr) : Prop :=
  heap_wf h ∧ ptr_wf h root_.

(** The walk from [p] consumes all of [k] and ends at [q] ([q] may be
    null: the last edge can be unbound or bound to null). *)
Definition reaches (h : heap) (p : ptr) (k : key) (q : ptr) : Prop :=
  ∃ node_stack, walk h k 0 [] p = Ok (length k, node_stack, q).

(** The versions a caller can hold: the default-constructed empty trie
    and whatever [Put] and [Remove] return from a version. *)
Inductive version : heap → ptr → Prop :=
  | version_empty : version empty_heap empty_root
  | version_Put h r k v h' r' :
      version h r → Put h r k v = Ok (h', r') → version h' r'
  | version_Remove h r k h' r' :
      version h r → Remove h r k = Ok (h', r') → version h' r'
  | version_old h r h' r' :
      version h r → version h' r' → h `prefix_of` h' → version h' r.

(** ** Relations used to describe the stores the operations build *)

(** The ancestors recorded by the walk, each paired with the byte that was
    consumed at it, form a chain of child references in the store. *)
Inductive chain (h : heap) : ptr → list (ptr * ascii) → ptr → Prop :=
  | chain_nil p : chain h p [] p
  | chain_cons a n c path q :
      h !! a = Some n →
      chain h (child_or_null n c) path q →
      chain h (Some a) ((Some a, c) :: path) q.

(** The result of step 3: above [child], one new node per ancestor, equal
    to the ancestor but for the binding of the byte the path takes.  The
    new nodes are at addresses from [lo] on. *)
Inductive copied (lo : nat) (h : heap) : list (ptr * ascii) → ptr → ptr → Prop :=
  | copied_nil child : copied lo h [] child child
  | copied_cons a n c path b q child :
      h !! a = Some n →
      lo ≤ b →
      h !! b = Some (set_child n c q) →
      copied lo h path q child →
      copied lo h ((Some a, c) :: path) (Some b) child.

(** The result of the second loop of [Put]: above the leaf, one new
    single-child node per unconsumed byte. *)
Inductive wrapped (h : heap) : list ascii → ptr → ptr → Prop :=
  | wrapped_nil child : wrapped h [] child child
  | wrapped_cons c sfx b q child :
      h !! b = Some (Branch {[ c := q ]}) →
      wrapped h sfx q child →
      wrapped h (c :: sfx) (Some b) child.

(** The shape of the version [Put] returns: the copied ancestors, then
    the new single-child nodes for the bytes that had no node yet, then
    the new value node, which keeps the children of the node it
    replaces. *)
Definition Put_shape (h : heap) (root_ : ptr) (k : key) (v : value)
    (h' : heap) (root' : ptr) : Prop :=
  ∃ (path : list (ptr * ascii)) (sfx : list ascii) (cur top : ptr)
    (leaf : addr) (ch : gmap ascii ptr),
    chain h root_ path cur ∧
    k = path.*2 ++ sfx ∧
    (sfx = [] ∨ cur = None) ∧
    copied (length h) h' path root' top ∧
    wrapped h' sfx top (Some leaf) ∧
    h' !! leaf = Some (WithValue ch v) ∧
    (cur = None → ch = ∅) ∧
    (∀ a n, cur = Some a → h !! a = Some n → ch = children_ n).

(** [agree T h p h' p' s]: but for the key [s], a lookup from [p'] in [h']
    returns what the lookup from [p] in [h] returns, whenever the latter
    does not dereference a null pointer; where [p] is null, nothing is
    found from [p']. *)
Definition agree (T : value_type) (h : heap) (p : ptr) (h' : heap) (p' : ptr)
    (s : key) : Prop :=
  ∀ k, k ≠ s →
    match p with
    | None => Get T h' p' k = Ok None
    | Some _ => Get T h p k = Fault ∨ Get T h' p' k = Get T h p k
    end.

(** The key [k] is stored in the version: the walk consumes all of [k]
    and ends at a value node. *)
Definition stored (h : heap) (root_ : ptr) (k : key) : Prop :=
  ∃ a ch v, reaches h root_ k (Some a) ∧ h !! a = Some (WithValue ch v).


(** Two lookups find the same value, if any. *)
Definition same_value (r r' : result (option value)) : Prop :=
  ∀ v, r = Ok (Some v) ↔ r' = Ok (Some v).

(** ** Concrete versions *)

Open Scope char_scope.

(** [Trie().Put("a", 1)] *)
Definition t1_heap : heap :=
  [WithValue ∅ (VUInt32 1); Branch {[ "a" := Some 0 ]}].
Definition t1_root : ptr := Some 1.

(** [Trie().Put("ab", 1)] *)
Definition tab_heap : heap :=
  [WithValue ∅ (VUInt32 1); Branch {[ "b" := Some 0 ]}; Branch {[ "a" := Some 1 ]}].
Definition tab_root : ptr := Some 2.

(** * Properties of the store *)

Section store.
Implicit Types (h : heap) (p q : ptr) (n : TrieNode) (k : key).

Lemma ptr_wf_None h : ptr_wf h None.
Proof. by intros a. Qed.

Lemma ptr_wf_Some h a : ptr_wf h (Some a) ↔ a < length h.
Proof. split; [intros H; by apply H | by intros H ? [= <-]]. Qed.

Lemma ptr_wf_mono h h' p : h `prefix_of` h' → ptr_wf h p → ptr_wf h' p.
Proof.
  intros Hpre Hp a ->. apply prefix_length in Hpre.
  specialize (Hp a eq_refl). lia.
Qed.

Lemma node_wf_mono h h' n : h `prefix_of` h' → node_wf h n → node_wf h' n.
Proof. intros Hpre Hn c p Hc. eapply ptr_wf_mono; eauto. Qed.

Lemma heap_wf_lookup h a n : heap_wf h → h !! a = Some n → node_wf h n.
Proof. intros Hh; apply Hh. Qed.

Lemma node_wf_child h n c : node_wf h n → ptr_wf h (child_or_null n c).
Proof.
  intros Hn. unfold child_or_null.
  destruct (children_ n !! c) as [p|] eqn:E; [by eapply Hn | apply ptr_wf_None].
Qed.

Lemma children_set_child n c p : children_ (set_child n c p) = <[c := p]> (children_ n).
Proof. by destruct n. Qed.

Lemma is_value_node_set_child n c p :
  is_value_node_ (set_child n c p) = is_value_node_ n.
Proof. by destruct n. Qed.

Lemma node_wf_set_child h n c p :
  node_wf h n → ptr_wf h p → node_wf h (set_child n c p).
Proof.
  intros Hn Hp c' p'. rewrite children_set_child, lookup_insert.
  case_decide; [by intros [= <-] | apply Hn].
Qed.

Lemma node_wf_singleton h c p : ptr_wf h p → node_wf h (Branch {[ c := p ]}).
Proof.
  intros Hp c' p'; simpl. rewrite lookup_singleton.
  case_decide; [by intros [= <-] | done].
Qed.

Lemma node_wf_empty h v : node_wf h (WithValue ∅ v).
Proof. intros c p; simpl. by rewrite lookup_empty. Qed.

(** Allocation keeps the store well formed when the new node is. *)
Lemma heap_wf_snoc h n : heap_wf h → node_wf (h ++ [n]) n → heap_wf (h ++ [n]).
Proof.
  intros Hh Hn a n' Ha.
  apply lookup_app_Some in Ha as [Ha | [_ Ha]].
  - eapply node_wf_mono; [by apply prefix_app_r | by eapply Hh].
  - apply list_lookup_singleton_Some in Ha as [_ <-]. done.
Qed.

Lemma heap_wf_nil : heap_wf [].
Proof. by intros a n. Qed.

(** The only store update of the program hits the node just allocated. *)
Lemma alter_fresh h n (f : TrieNode → TrieNode) :
  alter f (length h) (h ++ [n]) = h ++ [f n].
Proof.
  apply list_eq; intros i.
  destruct (decide (i = length h)) as [-> | Hne].
  - rewrite list_lookup_alter_eq, !list_lookup_middle by done. done.
  - rewrite list_lookup_alter_ne by done.
    destruct (decide (i < length h)).
    + by rewrite !lookup_app_l by done.
    + rewrite !lookup_app_r by lia.
      destruct (i - length h) as [|j] eqn:E; [lia | done].
Qed.

Lemma deref_Some h a n : h !! a = Some n → deref h (Some a) = Ok n.
Proof. simpl. by intros ->. Qed.

Lemma deref_wf h a : ptr_wf h (Some a) → ∃ n, h !! a = Some n ∧ deref h (Some a) = Ok n.
Proof.
  intros Ha%ptr_wf_Some. destruct (lookup_lt_is_Some_2 h a Ha) as [n Hn].
  exists n. split; [done | by apply deref_Some].
Qed.

Lemma Get_nil T h p : Get T h p [] = dynamic_cast T h p.
Proof. done. Qed.

Lemma Get_cons_null T h c k : Get T h None (c :: k) = Fault.
Proof. done. Qed.

Lemma Get_cons T h a n c k :
  h !! a = Some n →
  Get T h (Some a) (c :: k) =
    match children_ n !! c with
    | None => Ok None
    | Some p => Get T h p k
    end.
Proof. intros Hn. cbn. by rewrite Hn. Qed.

(** Reading a well-formed pointer is not affected by later allocations. *)
Lemma dynamic_cast_frame T h h' p :
  h `prefix_of` h' → ptr_wf h p → dynamic_cast T h' p = dynamic_cast T h p.
Proof.
  intros Hpre Hp. destruct p as [a|]; [|done].
  destruct (deref_wf h a Hp) as (n & Hn & _). unfold dynamic_cast.
  by rewrite Hn, (prefix_lookup_Some _ _ _ _ Hn Hpre).
Qed.

Lemma Get_frame T h h' p k :
  h `prefix_of` h' → heap_wf h → ptr_wf h p →
  Get T h' p k = Get T h p k.
Proof.
  intros Hpre Hh. revert p. induction k as [|c k IH]; intros p Hp.
  - by apply dynamic_cast_frame.
  - destruct p as [a|]; [|done].
    destruct (deref_wf h a Hp) as (n & Hn & _).
    rewrite (Get_cons _ _ _ _ _ _ Hn).
    rewrite (Get_cons _ _ _ _ _ _ (prefix_lookup_Some _ _ _ _ Hn Hpre)).
    destruct (children_ n !! c) as [q|] eqn:Hc; [|done].
    apply IH. eapply Hh; eauto.
Qed.

End store.

(** * The loops that run backwards *)

(** [wrap_suffix] and [copy_path] are given reversed lists where the code
    counts an index down.  These lemmas say which element of the key and
    of the stack each iteration reads. *)
Lemma rev_lookup {A : Type} (l : list A) (j : nat) :
  j < length l → rev l !! j = l !! (length l - S j).
Proof. intros Hj. rewrite rev_alt. by apply reverse_lookup. Qed.

(** Iteration [j] of the second loop of [Put] reads [key[--key_size]]
    with [key_size = length k - j] before the decrement. *)
Lemma rev_drop_lookup (k : key) (idx j : nat) :
  j < length k - idx → rev (drop idx k) !! j = k !! (length k - j - 1).
Proof.
  intros Hj. rewrite rev_lookup by (rewrite length_drop; lia).
  rewrite lookup_drop, length_drop. f_equal. lia.
Qed.

(** The iteration of the last loop with index [i] reads [node_stack[i]]
    and [key[i]]; it is iteration number [node_stack.size() - 1 - i]. *)
Lemma rev_zip_lookup (node_stack : list ptr) (k : key) (i : nat) p c :
  length node_stack ≤ length k →
  node_stack !! i = Some p → k !! i = Some c →
  rev (zip node_stack k) !! (length node_stack - 1 - i) = Some (p, c).
Proof.
  intros Hlen Hp Hc. pose proof (lookup_lt_Some _ _ _ Hp) as Hi.
  assert (length (zip node_stack k) = length node_stack) as Hz
    by (rewrite length_zip_with; lia).
  rewrite rev_lookup by lia. rewrite Hz.
  replace (length node_stack - S (length node_stack - 1 - i)) with i by lia.
  apply lookup_zip_with_Some. eauto.
Qed.

(** * The walk of [Put] and [Remove] *)

Section walk.
Implicit Types (h : heap) (p q : ptr) (n : TrieNode) (k : key).

(** The counters of the walk only accumulate. *)
Lemma walk_acc h k : ∀ idx node_stack p,
  walk h k idx node_stack p =
    '(i, st, q) ← walk h k 0 [] p; Ok (idx + i, node_stack ++ st, q).
Proof.
  induction k as [|c k IH]; intros idx st p.
  - cbn. by rewrite Nat.add_0_r, app_nil_r.
  - destruct p as [a|]; [|cbn; by rewrite Nat.add_0_r, app_nil_r].
    cbn. destruct (h !! a) as [n|]; [|done]. cbn.
    rewrite (IH (S idx)), (IH 1).
    destruct (walk h k 0 [] (child_or_null n c)) as [[[i st'] q]|]; [|done].
    cbn. by rewrite <- app_assoc, Nat.add_succ_r.
Qed.

Lemma walk_nil h p : walk h [] 0 [] p = Ok (0, [], p).
Proof. done. Qed.

Lemma walk_null h k : walk h k 0 [] None = Ok (0, [], None).
Proof. by destruct k. Qed.

Lemma walk_cons h a n c k :
  h !! a = Some n →
  walk h (c :: k) 0 [] (Some a) =
    '(i, st, q) ← walk h k 0 [] (child_or_null n c); Ok (S i, Some a :: st, q).
Proof. intros Hn. cbn. rewrite Hn. cbn. by rewrite walk_acc. Qed.

Lemma walk_cons_dangling h a c k :
  h !! a = None → walk h (c :: k) 0 [] (Some a) = Fault.
Proof. intros Hn. cbn. by rewrite Hn. Qed.

(** In a well-formed store the walk never fails. *)
Lemma walk_total h k : ∀ p,
  heap_wf h → ptr_wf h p →
  ∃ idx node_stack q, walk h k 0 [] p = Ok (idx, node_stack, q) ∧ ptr_wf h q.
Proof.
  induction k as [|c k IH]; intros p Hh Hp.
  - by exists 0, [], p.
  - destruct p as [a|]; [|by exists 0, [], None].
    destruct (deref_wf h a Hp) as (n & Hn & _).
    destruct (IH (child_or_null n c) Hh) as (i & st & q & Hw & Hq).
    { apply node_wf_child. by eapply Hh. }
    exists (S i), (Some a :: st), q. by rewrite (walk_cons _ _ _ _ _ Hn), Hw.
Qed.

(** What the walk returns: the recorded ancestors are a chain from the
    root along the first [idx] bytes of the key, and the walk stops
    before the end of the key only at a null [cur_node]. *)
Lemma walk_chain h k : ∀ p idx node_stack q,
  walk h k 0 [] p = Ok (idx, node_stack, q) →
  chain h p (zip node_stack k) q ∧
  length node_stack = idx ∧
  (zip node_stack k).*2 = take idx k ∧
  idx ≤ length k ∧
  (idx = length k ∨ q = None).
Proof.
  induction k as [|c k IH]; intros p idx st q Hw.
  - injection Hw as <- <- <-. repeat split; [constructor | lia | by left].
  - destruct p as [a|].
    + destruct (h !! a) as [n|] eqn:Hn;
        [rewrite (walk_cons _ _ _ _ _ Hn) in Hw
        | by rewrite (walk_cons_dangling _ _ _ _ Hn) in Hw].
      destruct (walk h k 0 [] (child_or_null n c)) as [[[i st'] q']|] eqn:Hw';
        [|done].
      injection Hw as <- <- <-.
      destruct (IH _ _ _ _ Hw') as (Hch & Hlen & Hsnd & Hle & Hend).
      cbn. repeat split.
      * by econstructor.
      * by rewrite Hlen.
      * by rewrite Hsnd.
      * lia.
      * destruct Hend as [-> | ->]; [by left | by right].
    + rewrite walk_null in Hw. injection Hw as <- <- <-.
      repeat split; [constructor | cbn; lia | by right].
Qed.

Lemma reaches_nil h p : reaches h p [] p.
Proof. by exists []. Qed.

Lemma reaches_cons h a n c k q :
  h !! a = Some n → reaches h (child_or_null n c) k q →
  reaches h (Some a) (c :: k) q.
Proof.
  intros Hn [st Hw]. exists (Some a :: st).
  by rewrite (walk_cons _ _ _ _ _ Hn), Hw.
Qed.

Lemma reaches_cons_inv h p c k q :
  reaches h p (c :: k) q →
  ∃ a n, p = Some a ∧ h !! a = Some n ∧ reaches h (child_or_null n c) k q.
Proof.
  intros [st Hw]. destruct p as [a|]; [|by rewrite walk_null in Hw].
  destruct (h !! a) as [n|] eqn:Hn;
    [rewrite (walk_cons _ _ _ _ _ Hn) in Hw
    | by rewrite (walk_cons_dangling _ _ _ _ Hn) in Hw].
  destruct (walk h k 0 [] (child_or_null n c)) as [[[i st'] q']|] eqn:Hw';
    [|done].
  cbn in Hw. injection Hw as Hi <- <-.
  exists a, n. repeat split; try done. exists st'. by rewrite Hw', Hi.
Qed.

(** [Get] follows the same edges as the walk: when the walk consumes the
    whole key, [Get] casts the node the walk ends at. *)
Lemma Get_reaches T h k : ∀ p q,
  reaches h p k q → Get T h p k = dynamic_cast T h q.
Proof.
  induction k as [|c k IH]; intros p q Hr.
  - destruct Hr as [st Hw]. by simplify_eq/=.
  - apply reaches_cons_inv in Hr as (a & n & -> & Hn & Hr).
    rewrite (Get_cons _ _ _ _ _ _ Hn). unfold child_or_null in Hr.
    destruct (children_ n !! c) as [p|] eqn:Hc; [by apply IH|].
    destruct k as [|c' k]; [|destruct Hr as [st Hw]; by rewrite walk_null in Hw].
    destruct Hr as [st Hw]. by simplify_eq/=.
Qed.

(** A chain is a walk that consumes its bytes. *)
Lemma chain_reaches h p path q : chain h p path q → reaches h p path.*2 q.
Proof.
  induction 1 as [|a n c path q Hn Hc IH]; [apply reaches_nil|].
  cbn. by eapply reaches_cons.
Qed.

Lemma chain_snoc_inv h path : ∀ p x c q,
  chain h p (path ++ [(x, c)]) q →
  ∃ a n, x = Some a ∧ chain h p path (Some a) ∧
         h !! a = Some n ∧ q = child_or_null n c.
Proof.
  induction path as [|[y c'] path IH]; intros p x c q Hc; cbn in Hc.
  - inversion Hc as [|a n c0 path0 q0 Hn Hc']; subst. inversion Hc'; subst.
    exists a, n. split_and!; try done. constructor.
  - inversion Hc as [|a n c0 path0 q0 Hn Hc']; subst.
    destruct (IH _ _ _ _ Hc') as (a' & n' & -> & Hch & Hn' & ->).
    exists a', n'. split_and!; try done. by econstructor.
Qed.

End walk.

(** * Path copying *)

Section path_copy.
Implicit Types (h : heap) (p q : ptr) (n : TrieNode) (k : key).
Implicit Types (path : list (ptr * ascii)) (sfx : list ascii).

Lemma copied_mono lo lo' h h' path p child :
  h `prefix_of` h' → lo' ≤ lo →
  copied lo h path p child → copied lo' h' path p child.
Proof.
  intros Hpre Hlo. induction 1; econstructor; eauto using prefix_lookup_Some.
  lia.
Qed.

Lemma copied_snoc lo h path p a n c b child :
  copied lo h path p (Some b) →
  h !! a = Some n → lo ≤ b → h !! b = Some (set_child n c child) →
  copied lo h (path ++ [(Some a, c)]) p child.
Proof.
  intros Hc Ha Hlo Hb. remember (Some b) as q eqn:Hq.
  induction Hc as [child'|a' n' c' path b' q' child' Ha' Hlo' Hb' Hc IH];
    subst; cbn.
  - econstructor; eauto. constructor.
  - econstructor; eauto.
Qed.

Lemma copied_snoc_inv lo h path p x c child :
  copied lo h (path ++ [(x, c)]) p child →
  ∃ a n b,
    x = Some a ∧ h !! a = Some n ∧ lo ≤ b ∧
    h !! b = Some (set_child n c child) ∧
    copied lo h path p (Some b).
Proof.
  revert p. induction path as [|[y c'] path IH]; intros p Hc; cbn in Hc.
  - inversion Hc as [|a n c0 path0 b q child0 Ha Hlo Hb Hc']; subst.
    inversion Hc'; subst. exists a, n, b. split_and!; try done. constructor.
  - inversion Hc as [|a n c0 path0 b q child0 Ha Hlo Hb Hc']; subst.
    destruct (IH _ Hc') as (a' & n' & b' & -> & Ha' & Hlo' & Hb' & Hc'').
    exists a', n', b'. split_and!; try done. by econstructor.
Qed.

Lemma wrapped_mono h h' sfx p child :
  h `prefix_of` h' → wrapped h sfx p child → wrapped h' sfx p child.
Proof.
  intros Hpre. induction 1; econstructor; eauto using prefix_lookup_Some.
Qed.

Lemma wrapped_snoc h sfx p c b child :
  wrapped h sfx p (Some b) →
  h !! b = Some (Branch {[ c := child ]}) →
  wrapped h (sfx ++ [c]) p child.
Proof.
  intros Hw Hb. remember (Some b) as q eqn:Hq.
  induction Hw as [child'|c' sfx b' q' child' Hb' Hw IH]; subst; cbn.
  - econstructor; eauto. constructor.
  - econstructor; eauto.
Qed.

Lemma child_or_null_set_child n c p : child_or_null (set_child n c p) c = p.
Proof. unfold child_or_null. by rewrite children_set_child, lookup_insert_eq. Qed.

(** Along the copied path, the new root leads to [child] ... *)
Lemma copied_reaches lo h path p child :
  copied lo h path p child → reaches h p path.*2 child.
Proof.
  induction 1 as [child|a n c path b q child Ha Hlo Hb Hc IH]; cbn.
  - apply reaches_nil.
  - eapply reaches_cons; [done|]. by rewrite child_or_null_set_child.
Qed.

(** ... and a lookup whose key starts with the bytes of the path
    continues at [child]. *)
Lemma copied_Get T lo h path p child k :
  copied lo h path p child → Get T h p (path.*2 ++ k) = Get T h child k.
Proof.
  induction 1 as [child|a n c path b q child Ha Hlo Hb Hc IH]; cbn -[Get]; [done|].
  rewrite (Get_cons _ _ _ _ _ _ Hb), children_set_child, lookup_insert_eq.
  apply IH.
Qed.

Lemma wrapped_Get T h sfx p child k :
  wrapped h sfx p child → Get T h p (sfx ++ k) = Get T h child k.
Proof.
  induction 1 as [child|c sfx b q child Hb Hw IH]; cbn -[Get]; [done|].
  rewrite (Get_cons _ _ _ _ _ _ Hb). cbn -[Get].
  by rewrite lookup_singleton_eq.
Qed.

(** One allocation on a well-formed store. *)
Lemma alloc_wf h n :
  heap_wf h → node_wf h n →
  heap_wf (h ++ [n]) ∧ h `prefix_of` (h ++ [n]) ∧
  (h ++ [n]) !! length h = Some n ∧ ptr_wf (h ++ [n]) (Some (length h)).
Proof.
  intros Hh Hn. split_and!.
  - apply heap_wf_snoc; [done|]. eapply node_wf_mono; [|done]. by apply prefix_app_r.
  - by apply prefix_app_r.
  - by apply list_lookup_middle.
  - apply ptr_wf_Some. rewrite length_app; cbn; lia.
Qed.

(** The second loop of [Put]. *)
Lemma wrap_suffix_spec sfx : ∀ h child,
  heap_wf h → ptr_wf h child →
  ∃ h' top,
    wrap_suffix h (rev sfx) child = (h', top) ∧
    h `prefix_of` h' ∧ heap_wf h' ∧ ptr_wf h' top ∧
    wrapped h' sfx top child.
Proof.
  induction sfx as [|c sfx IH] using rev_ind; intros h child Hh Hp.
  - exists h, child. split_and!; try done. constructor.
  - rewrite rev_unit. cbn.
    destruct (alloc_wf h (Branch {[ c := child ]}) Hh) as (Hh1 & Hpre1 & Hl1 & Hp1).
    { by apply node_wf_singleton. }
    destruct (IH _ (Some (length h)) Hh1 Hp1) as (h' & top & Hw & Hpre & Hh' & Htop & Hwr).
    exists h', top. split_and!; try done.
    + by etrans.
    + eapply wrapped_snoc; [done|]. by eapply prefix_lookup_Some.
Qed.

(** The last loop of [Put] and [Remove]: it cannot fail on ancestors that
    are in the store, it only allocates, and it builds the copied path.
    With no ancestor it returns [cur_node] as it was. *)
Lemma copy_path_spec path : ∀ h cur child,
  heap_wf h → ptr_wf h child →
  Forall (λ x, ∃ a, x.1 = Some a ∧ a < length h) path →
  ∃ h' top,
    copy_path h (rev path) cur child =
      Ok (h', if decide (path = []) then cur else top) ∧
    h `prefix_of` h' ∧ heap_wf h' ∧ ptr_wf h' top ∧
    length h' = length h + length path ∧
    copied (length h) h' path top child.
Proof.
  induction path as [|[p c] path IH] using rev_ind; intros h cur child Hh Hp Hall.
  - exists h, child. split_and!; first [done | cbn; lia | constructor].
  - rewrite rev_unit. apply Forall_app in Hall as [Hall Hlast].
    apply Forall_singleton in Hlast as (a & Hpa & Ha). cbn in Hpa. subst p.
    destruct (deref_wf h a) as (n & Hn & Hd); [by apply ptr_wf_Some|].
    cbn -[deref]. rewrite Hd. cbn. unfold Clone. rewrite alter_fresh.
    destruct (alloc_wf h (set_child n c child) Hh) as (Hh1 & Hpre1 & Hl1 & Hp1).
    { apply node_wf_set_child; [by eapply Hh | done]. }
    destruct (IH (h ++ [set_child n c child]) (Some (length h)) (Some (length h)))
      as (h' & top & Hcp & Hpre & Hh' & Htop & Hlen & Hcopied); try done.
    { eapply Forall_impl; [done|]. intros x (a' & ? & ?). exists a'.
      split; [done|]. rewrite length_app; cbn; lia. }
    assert ((if decide (path = []) then Some (length h) else top) = top) as Heq.
    { case_decide; [|done]. subst path. by inversion Hcopied. }
    rewrite Heq in Hcp.
    exists h', top. rewrite decide_False by (by destruct path).
    split_and!; try done.
    + by etrans.
    + rewrite Hlen, !length_app. cbn. lia.
    + eapply copied_snoc.
      * eapply copied_mono; [reflexivity | | exact Hcopied].
        rewrite length_app; cbn; lia.
      * eapply prefix_lookup_Some; [exact Hn | by etrans].
      * done.
      * eapply prefix_lookup_Some; [exact Hl1 | done].
Qed.

(** The ancestors of a chain are in the store. *)
Lemma chain_Forall h p path q :
  chain h p path q → Forall (λ x, ∃ a, x.1 = Some a ∧ a < length h) path.
Proof.
  induction 1 as [|a n c path q Hn Hc IH]; constructor; [|done].
  exists a. split; [done|]. by eapply lookup_lt_Some.
Qed.

End path_copy.

(** * [Put] *)

Section Put_correct.
Implicit Types (h : heap) (p q : ptr) (n : TrieNode) (k : key) (v : value).

Lemma make_leaf_spec h cur v :
  heap_wf h → ptr_wf h cur →
  ∃ ch,
    make_leaf h cur v = Ok (h ++ [WithValue ch v], length h) ∧
    node_wf h (WithValue ch v) ∧
    (cur = None → ch = ∅) ∧
    (∀ a n, cur = Some a → h !! a = Some n → ch = children_ n).
Proof.
  intros Hh Hcur. destruct cur as [a|].
  - destruct (deref_wf h a Hcur) as (n & Hn & Hd).
    exists (children_ n). unfold make_leaf. rewrite Hd. split_and!; try done.
    + intros c p Hc. eapply Hh; eauto.
    + intros a' n' [= <-] Hn'. congruence.
  - exists ∅. split_and!; first [done | apply node_wf_empty].
Qed.

(** [Put] always succeeds on a version, only allocates, and returns a
    version of the shape above. *)
Lemma Put_spec h root_ k v :
  version_wf h root_ →
  ∃ h' root',
    Put h root_ k v = Ok (h', root') ∧
    h `prefix_of` h' ∧ version_wf h' root' ∧
    Put_shape h root_ k v h' root'.
Proof.
  intros [Hh Hroot]. unfold Put.
  destruct (walk_total h k root_ Hh Hroot) as (idx & st & cur & Hw & Hcur).
  rewrite Hw. cbn -[make_leaf].
  destruct (walk_chain _ _ _ _ _ _ Hw) as (Hchain & Hlen & Hsnd & Hle & Hend).
  destruct (make_leaf_spec h cur v Hh Hcur) as (ch & Hleaf & Hchwf & Hch0 & Hch1).
  rewrite Hleaf. cbn -[wrap_suffix].
  destruct (alloc_wf h (WithValue ch v) Hh Hchwf) as (Hh1 & Hpre1 & Hl1 & Hp1).
  destruct (wrap_suffix_spec (drop idx k) _ _ Hh1 Hp1)
    as (h2 & top & Hws & Hpre2 & Hh2 & Htop & Hwr).
  rewrite Hws.
  assert (length h ≤ length h2) as Hlen2.
  { apply prefix_length. by etrans. }
  destruct (copy_path_spec (zip st k) h2 top top Hh2 Htop)
    as (h' & root' & Hcp & Hpre3 & Hh' & Hroot' & _ & Hcopied).
  { eapply Forall_impl; [by eapply chain_Forall|].
    intros x (a & ? & ?). exists a. split; [done|]. lia. }
  assert ((if decide (zip st k = []) then top else root') = root') as Heq.
  { case_decide as Hz; [|done]. rewrite Hz in Hcopied. by inversion Hcopied. }
  rewrite Heq in Hcp.
  exists h', root'. split_and!; try done.
  - etrans; [done|]. by etrans.
  - exists (zip st k), (drop idx k), cur, top, (length h), ch. split_and!; try done.
    + by rewrite Hsnd, take_drop.
    + destruct Hend as [-> | ->]; [left; by rewrite drop_all | by right].
    + eapply copied_mono; [reflexivity | exact Hlen2 | exact Hcopied].
    + by eapply wrapped_mono.
    + eapply prefix_lookup_Some; [exact Hl1 | by etrans].
Qed.

(** Looking up the key that was put ends at the new value node. *)
Lemma Put_shape_Get T h root_ k v h' root' :
  Put_shape h root_ k v h' root' →
  Get T h' root' k = if decide (type_of v = T) then Ok (Some v) else Ok None.
Proof.
  intros (path & sfx & cur & top & leaf & ch & _ & -> & _ & Hcp & Hwr & Hl & _).
  rewrite (copied_Get _ _ _ _ _ _ _ Hcp).
  rewrite <- (app_nil_r sfx), (wrapped_Get _ _ _ _ _ _ Hwr).
  cbn. by rewrite Hl.
Qed.

(** [Put] then [Get] at the same key, at any requested type. *)
Lemma Put_Get_same_key T h root_ k v :
  version_wf h root_ →
  ∃ h' root',
    Put h root_ k v = Ok (h', root') ∧
    Get T h' root' k = if decide (type_of v = T) then Ok (Some v) else Ok None.
Proof.
  intros Hwf.
  destruct (Put_spec h root_ k v Hwf) as (h' & root' & HP & _ & _ & Hshape).
  exists h', root'. split; [done|]. by eapply Put_shape_Get.
Qed.

End Put_correct.

(** * [Remove] *)

Section Remove_correct.
Implicit Types (h : heap) (p q : ptr) (n : TrieNode) (k : key) (v : value).

Lemma make_end_node_spec h n :
  heap_wf h → node_wf h n →
  ∃ h1 end_node,
    make_end_node h n = (h1, end_node) ∧
    h `prefix_of` h1 ∧ heap_wf h1 ∧ ptr_wf h1 end_node ∧
    (children_ n = ∅ → h1 = h ∧ end_node = None) ∧
    (children_ n ≠ ∅ →
       ∃ e, end_node = Some e ∧ length h ≤ e ∧
            h1 !! e = Some (Branch (children_ n))).
Proof.
  intros Hh Hn. unfold make_end_node. case_decide as Hch.
  - exists h, None. split_and!; first [done | apply ptr_wf_None].
  - destruct (alloc_wf h (Branch (children_ n)) Hh) as (Hh1 & Hpre1 & Hl1 & Hp1);
      [done|].
    cbn. eexists _, _. split_and!; try done.
    intros _. by exists (length h).
Qed.

(** The key is not stored: the test of line 89 holds and [Remove]
    returns the trie it was called on. *)
Lemma Remove_unchanged h root_ k idx node_stack cur :
  walk h k 0 [] root_ = Ok (idx, node_stack, cur) →
  idx ≠ length k ∨ cur = None ∨
    (∃ a ch, cur = Some a ∧ h !! a = Some (Branch ch)) →
  Remove h root_ k = Ok (h, root_).
Proof.
  intros Hw Hcond. unfold Remove. rewrite Hw. cbn -[deref].
  case_decide as Hidx; [done|].
  destruct Hcond as [? | [-> | (a & ch & -> & Ha)]]; [done..|].
  by rewrite (deref_Some _ _ _ Ha).
Qed.

(** The key is stored: the version [Remove] returns has the copied
    ancestors above the replacement of the value node, which is null
    when the value node had no children and a plain node with the same
    children otherwise.  For the empty key there is no ancestor and the
    returned root is the value node itself. *)
Lemma Remove_present h root_ k a ch v :
  heap_wf h →
  reaches h root_ k (Some a) → h !! a = Some (WithValue ch v) →
  ∃ h' top end_node path,
    Remove h root_ k = Ok (h', if decide (k = []) then Some a else top) ∧
    h `prefix_of` h' ∧ heap_wf h' ∧ ptr_wf h' top ∧
    chain h root_ path (Some a) ∧ path.*2 = k ∧
    copied (length h) h' path top end_node ∧
    (ch = ∅ → end_node = None) ∧
    (ch ≠ ∅ → ∃ e, end_node = Some e ∧ length h ≤ e ∧ h' !! e = Some (Branch ch)).
Proof.
  intros Hh [st Hw] Ha.
  destruct (walk_chain _ _ _ _ _ _ Hw) as (Hchain & Hlen & Hsnd & _ & _).
  rewrite take_ge in Hsnd by done.
  unfold Remove. rewrite Hw. cbn -[deref]. rewrite decide_False by (by intros []).
  rewrite (deref_Some _ _ _ Ha). cbn -[make_end_node].
  destruct (make_end_node_spec h (WithValue ch v) Hh)
    as (h1 & end_node & Hmk & Hpre1 & Hh1 & Hend & Hempty & Hnonempty).
  { by eapply Hh. }
  rewrite Hmk.
  destruct (copy_path_spec (zip st k) h1 (Some a) end_node Hh1 Hend)
    as (h' & top & Hcp & Hpre & Hh' & Htop & _ & Hcopied).
  { eapply Forall_impl; [by eapply chain_Forall|].
    intros x (a' & ? & ?). exists a'. split; [done|].
    apply prefix_length in Hpre1. lia. }
  exists h', top, end_node, (zip st k).
  assert ((if decide (zip st k = []) then Some a else top) =
          (if decide (k = []) then Some a else top)) as <-.
  { clear -Hsnd. destruct (zip st k); cbn in Hsnd; subst k; by repeat case_decide. }
  split_and!; try done.
  - by etrans.
  - eapply copied_mono; [reflexivity | by apply prefix_length | done].
  - intros Hch. by destruct (Hempty Hch) as [_ ->].
  - intros Hch. destruct (Hnonempty Hch) as (e & -> & Hle & He).
    exists e. split_and!; try done. by eapply prefix_lookup_Some.
Qed.

(** [Remove] always succeeds on a version and returns a version. *)
Lemma Remove_spec h root_ k :
  version_wf h root_ →
  ∃ h' root',
    Remove h root_ k = Ok (h', root') ∧
    h `prefix_of` h' ∧ version_wf h' root'.
Proof.
  intros [Hh Hroot].
  destruct (walk_total h k root_ Hh Hroot) as (idx & st & cur & Hw & Hcur).
  destruct (decide (idx = length k)) as [-> | Hidx]; last first.
  { exists h, root_. split_and!; try done. eapply Remove_unchanged; eauto. }
  destruct cur as [a|]; last first.
  { exists h, root_. split_and!; try done. eapply Remove_unchanged; eauto. }
  destruct (deref_wf h a Hcur) as ([ch | ch v] & Ha & _).
  { exists h, root_. split_and!; try done.
    eapply Remove_unchanged; eauto 10. }
  destruct (Remove_present h root_ k a ch v Hh) as
    (h' & top & e & path & HR & Hpre & Hh' & Htop & _); [by exists st | done |].
  eexists _, _. split_and!; [exact HR | done |].
  split; [done|]. case_decide; [|done]. by eapply ptr_wf_mono.
Qed.

End Remove_correct.

(** Every version a caller can hold is well formed. *)
Lemma version_version_wf h r : version h r → version_wf h r.
Proof.
  induction 1 as [|h r k v h' r' _ IH HP|h r k h' r' _ IH HR|h r h' r' _ IH1 _ IH2 Hpre].
  - split; [apply heap_wf_nil | apply ptr_wf_None].
  - destruct (Put_spec h r k v IH) as (h'' & r'' & HP' & _ & Hwf & _). congruence.
  - destruct (Remove_spec h r k IH) as (h'' & r'' & HR' & _ & Hwf). congruence.
  - destruct IH1 as [_ Hr], IH2 as [Hh' _]. split; [done|]. by eapply ptr_wf_mono.
Qed.

(** * Other keys *)

Section other_keys.
Implicit Types (h : heap) (p q : ptr) (n : TrieNode) (k : key) (v : value).

Lemma chain_end_wf h p path q :
  heap_wf h → ptr_wf h p → chain h p path q → ptr_wf h q.
Proof.
  intros Hh Hp Hc. induction Hc as [|a n c path q Hn Hc IH]; [done|].
  apply IH, node_wf_child. by eapply Hh.
Qed.

(** Below the new single-child nodes only the key they spell is bound. *)
Lemma wrapped_off T h sfx top l v k :
  wrapped h sfx top (Some l) → h !! l = Some (WithValue ∅ v) →
  k ≠ sfx → Get T h top k = Ok None.
Proof.
  intros Hw Hl. revert k. remember (Some l) as q eqn:Hq.
  induction Hw as [child|c sfx b q' child Hb Hw IH]; intros k Hk; subst.
  - destruct k as [|c k]; [done|].
    rewrite (Get_cons _ _ _ _ _ _ Hl). cbn. by rewrite lookup_empty.
  - destruct k as [|c' k]; [cbn; by rewrite Hb|].
    rewrite (Get_cons _ _ _ _ _ _ Hb). cbn. rewrite lookup_singleton.
    case_decide as Hc; [subst c'|done].
    apply IH; [done|]. congruence.
Qed.

(** A clone differs from the ancestor in one binding only, so agreement
    below the path lifts to the roots. *)
Lemma copied_agree T lo h h' path : ∀ p p' cur top s,
  h `prefix_of` h' → heap_wf h → ptr_wf h p →
  chain h p path cur → copied lo h' path p' top →
  agree T h cur h' top s →
  agree T h p h' p' (path.*2 ++ s).
Proof.
  induction path as [|[x c] path IH]; intros p p' cur top s Hpre Hh Hp Hch Hcp Hag.
  - inversion Hch; subst. by inversion Hcp; subst.
  - inversion Hch as [|a n c0 path0 q Hn Hch']; subst.
    inversion Hcp as [|a0 n' c0 path0 b q' child Hn' Hlo Hb Hcp']; subst.
    assert (n' = n) as ->.
    { pose proof (prefix_lookup_Some _ _ _ _ Hn Hpre). congruence. }
    assert (node_wf h n) as Hnwf by (by eapply Hh).
    specialize (IH (child_or_null n c) q' cur top s Hpre Hh
                  (node_wf_child _ _ _ Hnwf) Hch' Hcp' Hag).
    intros k Hk. destruct k as [|c' k].
    { right. cbn. rewrite Hb, Hn. by destruct n. }
    rewrite (Get_cons _ _ _ _ _ _ Hn), (Get_cons _ _ _ _ _ _ Hb).
    rewrite children_set_child, lookup_insert.
    case_decide as Hc; [subst c'|].
    + assert (k ≠ path.*2 ++ s) as Hk' by (cbn in Hk; congruence).
      specialize (IH k Hk'). unfold child_or_null in IH.
      destruct (children_ n !! c) as [[a'|]|] eqn:Hc; [done| |by right].
      destruct k; [by right | by left].
    + right. destruct (children_ n !! c') as [p0|] eqn:Hc'; [|done].
      apply Get_frame; [done..|]. by eapply Hnwf.
Qed.

(** [Put] leaves alone every other key whose lookup did not fail. *)
Lemma Put_shape_agree T h root_ k v h' root' :
  version_wf h root_ → h `prefix_of` h' →
  Put_shape h root_ k v h' root' →
  agree T h root_ h' root' k.
Proof.
  intros [Hh Hroot] Hpre
    (path & sfx & cur & top & leaf & ch & Hch & -> & Hend & Hcp & Hwr & Hl & Hch0 & Hch1).
  eapply copied_agree; try done.
  pose proof (chain_end_wf _ _ _ _ Hh Hroot Hch) as Hcur.
  destruct cur as [a|].
  - destruct Hend as [-> | ?]; [|done]. inversion Hwr; subst.
    destruct (deref_wf h a Hcur) as (n & Hn & _).
    rewrite (Hch1 a n eq_refl Hn) in Hl.
    intros [|c k] Hk; [done|]. right.
    rewrite (Get_cons _ _ _ _ _ _ Hn), (Get_cons _ _ _ _ _ _ Hl). cbn.
    destruct (children_ n !! c) as [p0|] eqn:Hc; [|done].
    apply Get_frame; [done..|]. eapply Hh; eauto.
  - rewrite (Hch0 eq_refl) in Hl. intros k Hk. by eapply wrapped_off.
Qed.

Lemma Put_other_key T h root_ k v h' root' k' :
  version_wf h root_ → Put h root_ k v = Ok (h', root') →
  k' ≠ k → Get T h root_ k' ≠ Fault →
  Get T h' root' k' = Get T h root_ k'.
Proof.
  intros Hwf HP Hk Hok.
  destruct (Put_spec h root_ k v Hwf) as (h'' & root'' & HP' & Hpre & _ & Hshape).
  rewrite HP in HP'. injection HP' as <- <-.
  pose proof (Put_shape_agree T _ _ _ _ _ _ Hwf Hpre Hshape k' Hk) as Hag.
  destruct root_ as [a|]; [by destruct Hag|].
  rewrite Hag. destruct k'; [done|]. by cbn in Hok.
Qed.

End other_keys.

(** * Stored keys *)

Section stored_keys.
Implicit Types (h : heap) (p q : ptr) (n : TrieNode) (k : key) (v : value).

Lemma reaches_app h k1 k2 : ∀ p q1 q,
  reaches h p k1 q1 → reaches h q1 k2 q → reaches h p (k1 ++ k2) q.
Proof.
  induction k1 as [|c k1 IH]; intros p q1 q H1 H2.
  - destruct H1 as [st Hw]. by simplify_eq/=.
  - apply reaches_cons_inv in H1 as (a & n & -> & Hn & H1).
    cbn. eapply reaches_cons; eauto.
Qed.

Lemma wrapped_reaches h sfx p child :
  wrapped h sfx p child → reaches h p sfx child.
Proof.
  induction 1 as [child|c sfx b q child Hb Hw IH]; [apply reaches_nil|].
  eapply reaches_cons; [done|].
  unfold child_or_null. cbn. by rewrite lookup_singleton_eq.
Qed.

(** After [Put] the key is stored, with the value that was put. *)
Lemma Put_shape_reaches h root_ k v h' root' :
  Put_shape h root_ k v h' root' →
  ∃ leaf ch, reaches h' root' k (Some leaf) ∧ h' !! leaf = Some (WithValue ch v).
Proof.
  intros (path & sfx & cur & top & leaf & ch & _ & -> & _ & Hcp & Hwr & Hl & _).
  exists leaf, ch. split; [|done].
  eapply reaches_app; [by eapply copied_reaches | by apply wrapped_reaches].
Qed.

(** A key is stored exactly when a lookup at some type finds a value. *)
Lemma stored_Get h k : ∀ root_,
  stored h root_ k ↔ ∃ T v, Get T h root_ k = Ok (Some v).
Proof.
  intros root_. split.
  - intros (a & ch & v & Hr & Ha). exists (type_of v), v.
    rewrite (Get_reaches _ _ _ _ _ Hr). cbn. rewrite Ha. by rewrite decide_True.
  - intros (T & v & HG). revert root_ HG.
    induction k as [|c k IH]; intros [a|] HG; try done.
    + cbn in HG. destruct (h !! a) as [[ch|ch v']|] eqn:Ha; try done.
      exists a, ch, v'. split; [apply reaches_nil | done].
    + cbn in HG. destruct (h !! a) as [n|] eqn:Ha; [|done]. cbn in HG.
      destruct (children_ n !! c) as [p|] eqn:Hc; [|done].
      destruct (IH _ HG) as (b & ch & v' & Hr & Hb).
      exists b, ch, v'. split; [|done].
      eapply reaches_cons; [done|]. unfold child_or_null. by rewrite Hc.
Qed.

(** Removing a stored key that is not empty: nothing is found at the
    key in the returned version. *)
Lemma Remove_stored_Get T h root_ k :
  heap_wf h → stored h root_ k → k ≠ [] →
  ∃ h' root',
    Remove h root_ k = Ok (h', root') ∧ Get T h' root' k = Ok None.
Proof.
  intros Hh (a & ch & v & Hr & Ha) Hk.
  destruct (Remove_present h root_ k a ch v Hh Hr Ha)
    as (h' & top & e & path & HR & _ & _ & _ & _ & Hsnd & Hcp & He0 & He1).
  rewrite decide_False in HR by done.
  exists h', top. split; [done|].
  rewrite <- Hsnd, <- (app_nil_r path.*2), (copied_Get _ _ _ _ _ _ _ Hcp).
  destruct (decide (ch = ∅)) as [Hch | Hch].
  - by rewrite (He0 Hch).
  - destruct (He1 Hch) as (b & -> & _ & Hb). cbn. by rewrite Hb.
Qed.

(** Removing the empty key, when it is stored: the returned root is the
    value node itself, in the same store. *)
Lemma Remove_stored_empty_key h a ch v :
  heap_wf h → h !! a = Some (WithValue ch v) →
  ∃ h', Remove h (Some a) [] = Ok (h', Some a) ∧
        Get (type_of v) h' (Some a) [] = Ok (Some v).
Proof.
  intros Hh Ha.
  destruct (Remove_present h (Some a) [] a ch v Hh (reaches_nil _ _) Ha)
    as (h' & top & e & path & HR & Hpre & _).
  exists h'. split; [done|].
  cbn. rewrite (prefix_lookup_Some _ _ _ _ Ha Hpre). by rewrite decide_True.
Qed.

(** Unless the key is stored, the test of line 89 holds. *)
Lemma Remove_unless_stored h root_ k :
  version_wf h root_ → ¬ stored h root_ k →
  Remove h root_ k = Ok (h, root_).
Proof.
  intros [Hh Hroot] Hns.
  destruct (walk_total h k root_ Hh Hroot) as (idx & st & cur & Hw & Hcur).
  eapply Remove_unchanged; [done|].
  destruct (decide (idx = length k)) as [-> | Hidx]; [|by left].
  right. destruct cur as [a|]; [|by left]. right.
  destruct (deref_wf h a Hcur) as ([ch | ch v] & Ha & _); [by exists a, ch|].
  destruct Hns. exists a, ch, v. split; [by exists st | done].
Qed.

End stored_keys.

(** * Concrete versions *)

Lemma t1_Put :
  Put empty_heap empty_root (key_of "a") (VUInt32 1) = Ok (t1_heap, t1_root).
Proof. reflexivity. Qed.

Lemma tab_Put :
  Put empty_heap empty_root (key_of "ab") (VUInt32 1) = Ok (tab_heap, tab_root).
Proof. reflexivity. Qed.

Lemma t1_version : version t1_heap t1_root.
Proof. eapply version_Put; [apply version_empty | apply t1_Put]. Qed.

Lemma tab_version : version tab_heap tab_root.
Proof. eapply version_Put; [apply version_empty | apply tab_Put]. Qed.

Lemma t1_wf : version_wf t1_heap t1_root.
Proof. apply version_version_wf, t1_version. Qed.

Lemma tab_wf : version_wf tab_heap tab_root.
Proof. apply version_version_wf, tab_version. Qed.

(** The scenario of the specification: [t1 = Put(t0, "a", 1)],
    [t2 = Put(t1, "ab", 2)], [t3 = Remove(t2, "a")]. *)
Example scenario :
  ∃ h2 t2 h3 t3,
    Put t1_heap t1_root (key_of "ab") (VUInt32 2) = Ok (h2, t2) ∧
    Remove h2 t2 (key_of "a") = Ok (h3, t3) ∧
    Get TUInt32 h3 t3 (key_of "a") = Ok None ∧
    Get TUInt32 h3 t3 (key_of "ab") = Ok (Some (VUInt32 2)) ∧
    Get TUInt32 h3 t1_root (key_of "a") = Ok (Some (VUInt32 1)) ∧
    Get TUInt32 h3 t2 (key_of "a") = Ok (Some (VUInt32 1)).
Proof. by eexists _, _, _, _. Qed.

(** * The properties of the specification *)

(** C1, round trip: on every version, for every key (the empty key
    included) and every value, [Put] succeeds and a [Get] at the type of
    the value, on the returned version and the same key, returns that
    value. *)
Theorem Get_Put_roundtrip (h : heap) (root_ : ptr) (k : key) (v : value)
    (T : value_type) :
  version_wf h root_ → type_of v = T →
  ∃ h' root',
    Put h root_ k v = Ok (h', root') ∧ Get T h' root' k = Ok (Some v).
Proof.
  intros Hwf HT.
  destruct (Put_Get_same_key T h root_ k v Hwf) as (h' & root' & HP & HG).
  exists h', root'. by rewrite HG, decide_True.
Qed.

Lemma Get_Put_roundtrip_witness :
  version_wf t1_heap t1_root ∧ type_of (VUInt32 2) = TUInt32 ∧
  ∃ h' root',
    Put t1_heap t1_root (key_of "ab") (VUInt32 2) = Ok (h', root') ∧
    Get TUInt32 h' root' (key_of "ab") = Ok (Some (VUInt32 2)).
Proof.
  split; [exact t1_wf|]. split; [reflexivity|].
  exact (Get_Put_roundtrip t1_heap t1_root (key_of "ab") (VUInt32 2) TUInt32
           t1_wf eq_refl).
Defined.

(** The round trip holds for the empty key in particular. *)
Corollary Get_Put_empty_key (h : heap) (root_ : ptr) (v : value) :
  version_wf h root_ →
  ∃ h' root',
    Put h root_ [] v = Ok (h', root') ∧ Get (type_of v) h' root' [] = Ok (Some v).
Proof.
  intros Hwf.
  destruct (Put_Get_same_key (type_of v) h root_ [] v Hwf) as (h' & root' & HP & HG).
  exists h', root'. by rewrite HG, decide_True.
Qed.

(** C2, delete correctness, fails for the empty key: [Remove] leaves its
    last loop with [cur_node] still the value node and returns it as the
    root, so the value put at the empty key into the empty trie is still
    found after it was removed. *)
Theorem Remove_empty_key_keeps_value (v : value) :
  ∃ h1 r1 h2 r2,
    Put empty_heap empty_root [] v = Ok (h1, r1) ∧
    Remove h1 r1 [] = Ok (h2, r2) ∧
    r2 = r1 ∧
    Get (type_of v) h2 r2 [] = Ok (Some v).
Proof.
  eexists _, _, _, _. split_and!; try reflexivity.
  cbn. by rewrite decide_True.
Qed.

(** The same on every version. *)
Lemma Remove_Put_empty_key (h : heap) (root_ : ptr) (v : value) :
  version_wf h root_ →
  ∃ h1 r1 h2,
    Put h root_ [] v = Ok (h1, r1) ∧
    Remove h1 r1 [] = Ok (h2, r1) ∧
    Get (type_of v) h2 r1 [] = Ok (Some v).
Proof.
  intros Hwf.
  destruct (Put_spec h root_ [] v Hwf) as (h1 & r1 & HP & _ & [Hh1 _] & Hshape).
  destruct (Put_shape_reaches _ _ _ _ _ _ Hshape) as (leaf & ch & [st Hw] & Hl).
  assert (r1 = Some leaf) as -> by (by simplify_eq/=).
  destruct (Remove_stored_empty_key h1 leaf ch v Hh1 Hl) as (h2 & HR & HG).
  by exists h1, (Some leaf), h2.
Qed.

(** For every other key, delete correctness holds. *)
Lemma Get_Remove_Put (h : heap) (root_ : ptr) (k : key) (v : value)
    (T : value_type) :
  version_wf h root_ → k ≠ [] →
  ∃ h1 r1 h2 r2,
    Put h root_ k v = Ok (h1, r1) ∧
    Remove h1 r1 k = Ok (h2, r2) ∧
    Get T h2 r2 k = Ok None.
Proof.
  intros Hwf Hk.
  destruct (Put_spec h root_ k v Hwf) as (h1 & r1 & HP & _ & [Hh1 _] & Hshape).
  destruct (Put_shape_reaches _ _ _ _ _ _ Hshape) as (leaf & ch & Hr & Hl).
  destruct (Remove_stored_Get T h1 r1 k Hh1) as (h2 & r2 & HR & HG); [|done|].
  { by exists leaf, ch, v. }
  by exists h1, r1, h2, r2.
Qed.

(** C3, pruning, fails: the last loop of [Remove] never replaces a clone
    by null.  After the only key ["ab"] is removed, the returned root is
    not null, and its child for ["a"] is a node without a value whose only
    binding is ["b"], bound to null. *)
Theorem Remove_leaves_dangling_branch :
  ∃ h2 r a,
    Remove tab_heap tab_root (key_of "ab") = Ok (h2, Some r) ∧
    h2 !! r = Some (Branch {[ "a" := Some a ]}) ∧
    h2 !! a = Some (Branch {[ "b" := None ]}).
Proof. by eexists _, _, _. Qed.

(** On every version: removing a stored key that is not empty returns a
    root that is not null, whatever else the version stores. *)
Lemma Remove_root_not_null (h : heap) (root_ : ptr) (k : key) :
  heap_wf h → stored h root_ k → k ≠ [] →
  ∃ h' b n,
    Remove h root_ k = Ok (h', Some b) ∧ length h ≤ b ∧
    h' !! b = Some n ∧ children_ n ≠ ∅.
Proof.
  intros Hh (a & ch & v & Hr & Ha) Hk.
  destruct (Remove_present h root_ k a ch v Hh Hr Ha)
    as (h' & top & e & path & HR & _ & _ & _ & _ & Hsnd & Hcp & _).
  rewrite decide_False in HR by done.
  inversion Hcp as [|a0 n c path0 b q child Hn Hlo Hb Hcp']; subst; [done|].
  exists h', b, (set_child n c q). split_and!; try done.
  rewrite children_set_child. apply insert_non_empty.
Qed.

(** C4, lookup on absence, fails: the loop of [Get] reads the children of
    the current node without testing it for null, so on a null node and a
    key with a byte left, [Get] dereferences a null pointer.  The empty
    trie is the case [h = empty_heap]. *)
Theorem Get_null_node_faults (T : value_type) (h : heap) (c : ascii) (k : key) :
  Get T h empty_root (c :: k) = Fault.
Proof. reflexivity. Qed.

(** The same happens below the root, at an edge that [Remove] has bound
    to null: in [Remove(Put(Trie(), "ab", 1), "ab")], looking up ["abc"]. *)
Lemma Get_null_child_faults (T : value_type) :
  ∃ h2 r2,
    Remove tab_heap tab_root (key_of "ab") = Ok (h2, r2) ∧
    Get T h2 r2 (key_of "abc") = Fault.
Proof. by eexists _, _. Qed.

(** C5, isolation, fails where the lookup in the old version fails: on
    the empty trie, after [Put("a", v)] nothing is found at ["b"], while
    on the empty trie itself the lookup of ["b"] dereferences the null
    root. *)
Theorem Put_other_key_empty_trie (T : value_type) (v : value) :
  ∃ h' root',
    Put empty_heap empty_root (key_of "a") v = Ok (h', root') ∧
    Get T h' root' (key_of "b") = Ok None ∧
    Get T empty_heap empty_root (key_of "b") = Fault.
Proof. by eexists _, _. Qed.

(** Where the lookup in the old version does not fail, [Put] leaves every
    other key alone. *)
Lemma Put_isolation (T : value_type) (h : heap) (root_ : ptr) (k k' : key)
    (v : value) :
  version_wf h root_ → k ≠ k' → Get T h root_ k ≠ Fault →
  ∃ h' root',
    Put h root_ k' v = Ok (h', root') ∧ Get T h' root' k = Get T h root_ k.
Proof.
  intros Hwf Hk Hok.
  destruct (Put_spec h root_ k' v Hwf) as (h' & root' & HP & _).
  exists h', root'. split; [done|]. by eapply Put_other_key.
Qed.

(** The version [Put] was called on is unchanged: in the store [Put]
    returns, every lookup from the old root gives what it gave before. *)
Lemma Put_persistence (T : value_type) (h : heap) (root_ : ptr) (k k' : key)
    (v : value) :
  version_wf h root_ →
  ∃ h' root',
    Put h root_ k' v = Ok (h', root') ∧ Get T h' root_ k = Get T h root_ k.
Proof.
  intros Hwf.
  destruct (Put_spec h root_ k' v Hwf) as (h' & root' & HP & Hpre & _).
  exists h', root'. split; [done|]. destruct Hwf. by apply Get_frame.
Qed.

(** C6, overwrite: after two [Put]s at the same key, a lookup on the last
    version finds the second value (and nothing at any other type), and
    the intermediate version still reports the first value. *)
Theorem Put_overwrite (h : heap) (root_ : ptr) (k : key) (v1 v2 : value) :
  version_wf h root_ →
  ∃ h1 r1 h2 r2,
    Put h root_ k v1 = Ok (h1, r1) ∧
    Put h1 r1 k v2 = Ok (h2, r2) ∧
    Get (type_of v2) h2 r2 k = Ok (Some v2) ∧
    (∀ T, T ≠ type_of v2 → Get T h2 r2 k = Ok None) ∧
    Get (type_of v1) h2 r1 k = Ok (Some v1).
Proof.
  intros Hwf.
  destruct (Put_spec h root_ k v1 Hwf) as (h1 & r1 & HP1 & _ & Hwf1 & Hshape1).
  destruct (Put_spec h1 r1 k v2 Hwf1) as (h2 & r2 & HP2 & Hpre2 & _ & Hshape2).
  exists h1, r1, h2, r2. split_and!; try done.
  - rewrite (Put_shape_Get _ _ _ _ _ _ _ Hshape2). by rewrite decide_True.
  - intros T HT. rewrite (Put_shape_Get _ _ _ _ _ _ _ Hshape2).
    by rewrite decide_False.
  - destruct Hwf1 as [Hh1 Hr1]. rewrite (Get_frame _ h1 h2) by done.
    rewrite (Put_shape_Get _ _ _ _ _ _ _ Hshape1). by rewrite decide_True.
Qed.

Lemma Put_overwrite_witness :
  version_wf t1_heap t1_root ∧
  ∃ h1 r1 h2 r2,
    Put t1_heap t1_root (key_of "a") (VUInt32 7) = Ok (h1, r1) ∧
    Put h1 r1 (key_of "a") (VString "x") = Ok (h2, r2) ∧
    Get TString h2 r2 (key_of "a") = Ok (Some (VString "x")) ∧
    (∀ T, T ≠ TString → Get T h2 r2 (key_of "a") = Ok None) ∧
    Get TUInt32 h2 r1 (key_of "a") = Ok (Some (VUInt32 7)).
Proof.
  split; [exact t1_wf|].
  exact (Put_overwrite t1_heap t1_root (key_of "a") (VUInt32 7) (VString "x") t1_wf).
Defined.

(** C7, type mismatch: when the node reached at the end of the key holds
    a value of a type other than the requested one, [Get] returns
    [nullptr]. *)
Theorem Get_type_mismatch (T : value_type) (h : heap) (root_ : ptr) (k : key)
    (a : addr) (ch : gmap ascii ptr) (v : value) :
  reaches h root_ k (Some a) → h !! a = Some (WithValue ch v) →
  type_of v ≠ T →
  Get T h root_ k = Ok None.
Proof.
  intros Hr Ha HT. rewrite (Get_reaches _ _ _ _ _ Hr). cbn.
  by rewrite Ha, decide_False.
Qed.

Lemma Get_type_mismatch_witness :
  reaches t1_heap t1_root (key_of "a") (Some 0) ∧
  t1_heap !! 0 = Some (WithValue ∅ (VUInt32 1)) ∧
  type_of (VUInt32 1) ≠ TString ∧
  Get TString t1_heap t1_root (key_of "a") = Ok None.
Proof.
  assert (reaches t1_heap t1_root (key_of "a") (Some 0)) as Hr.
  { exists [Some 1]. reflexivity. }
  assert (type_of (VUInt32 1) ≠ TString) as HT by discriminate.
  split_and!; [exact Hr | reflexivity | exact HT |].
  exact (Get_type_mismatch TString t1_heap t1_root (key_of "a") 0 ∅ (VUInt32 1)
           Hr eq_refl HT).
Defined.

(** The same after a [Put]: the value just put is not found at another
    type. *)
Corollary Get_Put_wrong_type (T : value_type) (h : heap) (root_ : ptr)
    (k : key) (v : value) :
  version_wf h root_ → type_of v ≠ T →
  ∃ h' root', Put h root_ k v = Ok (h', root') ∧ Get T h' root' k = Ok None.
Proof.
  intros Hwf HT.
  destruct (Put_Get_same_key T h root_ k v Hwf) as (h' & root' & HP & HG).
  exists h', root'. by rewrite HG, decide_False.
Qed.

(** C8, no-op delete: when the key is not stored (the walk does not
    consume the whole key, or the node it ends at is null or holds no
    value), [Remove] returns the same root in the same store. *)
Theorem Remove_not_stored (h : heap) (root_ : ptr) (k : key) :
  version_wf h root_ → ¬ stored h root_ k →
  Remove h root_ k = Ok (h, root_).
Proof. apply Remove_unless_stored. Qed.

Lemma Remove_not_stored_witness :
  version_wf tab_heap tab_root ∧ ¬ stored tab_heap tab_root (key_of "a") ∧
  Remove tab_heap tab_root (key_of "a") = Ok (tab_heap, tab_root).
Proof.
  assert (¬ stored tab_heap tab_root (key_of "a")) as Hns.
  { intros (a & ch & v & [st Hw] & Ha). vm_compute in Hw.
    injection Hw as _ <-. vm_compute in Ha. discriminate Ha. }
  split_and!; [exact tab_wf | exact Hns |].
  exact (Remove_not_stored tab_heap tab_root (key_of "a") tab_wf Hns).
Defined.

(** Not stored means that no lookup finds a value, so the version
    returned is the same for every lookup. *)
Corollary Remove_not_found (h : heap) (root_ : ptr) (k : key) :
  version_wf h root_ → (∀ T v, Get T h root_ k ≠ Ok (Some v)) →
  Remove h root_ k = Ok (h, root_).
Proof.
  intros Hwf HG. apply Remove_unless_stored; [done|].
  intros (T & v & HGet)%stored_Get. by eapply HG.
Qed.

(** C9: on the empty trie and the empty key, [Get] skips its loop, the
    cast of the null root gives null and [Get] returns [nullptr]. *)
Theorem Get_empty_trie_empty_key (T : value_type) (h : heap) :
  Get T h empty_root [] = Ok None.
Proof. reflexivity. Qed.

(** C10: when [Remove] deletes a stored key [k ++ [c]] whose value node
    has no children, the parent in the returned version -- a new node,
    the clone of the old parent -- has [c] bound in its children, to
    null. *)
Theorem Remove_binds_null (h : heap) (root_ : ptr) (k : key) (c : ascii)
    (a : addr) (v : value) :
  heap_wf h → reaches h root_ (k ++ [c]) (Some a) →
  h !! a = Some (WithValue ∅ v) →
  ∃ h' root' old n_old parent n,
    Remove h root_ (k ++ [c]) = Ok (h', root') ∧
    reaches h root_ k (Some old) ∧ h !! old = Some n_old ∧
    reaches h' root' k (Some parent) ∧ h' !! parent = Some n ∧
    length h ≤ parent ∧
    n = set_child (Clone n_old) c None ∧
    children_ n !! c = Some None.
Proof.
  intros Hh Hr Ha.
  destruct (Remove_present h root_ (k ++ [c]) a ∅ v Hh Hr Ha)
    as (h' & top & e & path & HR & Hpre & _ & _ & Hch & Hsnd & Hcp & He0 & _).
  rewrite decide_False in HR by (by destruct k).
  rewrite (He0 eq_refl) in Hcp.
  destruct path as [|x path _] using rev_ind; [by destruct k|].
  rewrite fmap_app in Hsnd. cbn in Hsnd.
  apply app_inj_tail in Hsnd as [Hk Hc]. destruct x as [x c']. cbn in Hc. subst c'.
  apply copied_snoc_inv in Hcp as (a' & n' & b & -> & Ha' & Hlo & Hb & Hcp).
  apply chain_snoc_inv in Hch as (a'' & n'' & [= <-] & Hch & Hn'' & _).
  assert (n' = n'') as <-.
  { pose proof (prefix_lookup_Some _ _ _ _ Hn'' Hpre). congruence. }
  exists h', top, a', n', b, (set_child n' c None). split_and!; try done.
  - rewrite <- Hk. by apply chain_reaches.
  - rewrite <- Hk. by eapply copied_reaches.
  - by rewrite children_set_child, lookup_insert_eq.
Qed.

Lemma Remove_binds_null_witness :
  heap_wf tab_heap ∧ reaches tab_heap tab_root ([ "a" ] ++ [ "b" ]) (Some 0) ∧
  tab_heap !! 0 = Some (WithValue ∅ (VUInt32 1)) ∧
  ∃ h' root' old n_old parent n,
    Remove tab_heap tab_root ([ "a" ] ++ [ "b" ]) = Ok (h', root') ∧
    reaches tab_heap tab_root [ "a" ] (Some old) ∧ tab_heap !! old = Some n_old ∧
    reaches h' root' [ "a" ] (Some parent) ∧ h' !! parent = Some n ∧
    length tab_heap ≤ parent ∧
    n = set_child (Clone n_old) "b" None ∧
    children_ n !! "b" = Some None.
Proof.
  assert (reaches tab_heap tab_root ([ "a" ] ++ [ "b" ]) (Some 0)) as Hr.
  { exists [Some 2; Some 1]. reflexivity. }
  split_and!; [exact (proj1 tab_wf) | exact Hr | reflexivity |].
  exact (Remove_binds_null tab_heap tab_root [ "a" ] "b" 0 (VUInt32 1)
           (proj1 tab_wf) Hr eq_refl).
Defined.

(** * Allocation *)

Section allocation.
Implicit Types (h : heap) (p q : ptr) (n : TrieNode) (k : key) (v : value).

(** The second loop of [Put] allocates one node per byte it is given and
    ends with the node allocated last. *)
Lemma wrap_suffix_last rs : ∀ h child h' top,
  wrap_suffix h rs child = (h', top) →
  length h' = length h + length rs ∧
  top = match rs with [] => child | _ => Some (length h' - 1) end.
Proof.
  induction rs as [|c rs IH]; intros h child h' top Hw; cbn in Hw.
  - injection Hw as <- <-. split; [cbn; lia | done].
  - apply IH in Hw as [Hlen ->]. rewrite length_app in Hlen. cbn in Hlen.
    split; [cbn; lia|]. destruct rs; [|done]. f_equal. cbn in Hlen. lia.
Qed.

(** So does the last loop of [Put] and [Remove], per ancestor. *)
Lemma copy_path_last rpath : ∀ h cur child h' r,
  copy_path h rpath cur child = Ok (h', r) →
  length h' = length h + length rpath ∧
  r = match rpath with [] => cur | _ => Some (length h' - 1) end.
Proof.
  induction rpath as [|[p c] rpath IH]; intros h cur child h' r Hc.
  - injection Hc as <- <-. split; [cbn; lia | done].
  - cbn -[deref] in Hc. destruct (deref h p) as [n|]; [|done]. cbn in Hc.
    rewrite alter_fresh in Hc. apply IH in Hc as [Hlen ->].
    rewrite length_app in Hlen. cbn in Hlen.
    split; [cbn; lia|]. destruct rpath; [|done]. f_equal. cbn in Hlen. lia.
Qed.

Lemma Put_last h root_ k v h' root' :
  Put h root_ k v = Ok (h', root') →
  length h' = length h + length k + 1 ∧ root' = Some (length h + length k).
Proof.
  unfold Put. intros HP.
  destruct (walk h k 0 [] root_) as [[[idx st] cur]|] eqn:Hw; [|done].
  destruct (walk_chain _ _ _ _ _ _ Hw) as (_ & Hlen & _ & Hle & _).
  cbn -[make_leaf] in HP.
  assert (∃ n, make_leaf h cur v = Fault ∨ make_leaf h cur v = Ok (h ++ [n], length h))
    as (n & [Hl | Hl]).
  { unfold make_leaf. destruct cur as [a|]; [|by eexists; right].
    destruct (deref h (Some a)) as [m|]; [by eexists; right | by exists (Branch ∅); left]. }
  { by rewrite Hl in HP. }
  rewrite Hl in HP. cbn -[wrap_suffix] in HP.
  destruct (wrap_suffix (h ++ [n]) (rev (drop idx k)) (Some (length h)))
    as [h2 top] eqn:Hws.
  apply wrap_suffix_last in Hws as [Hlen2 Htop].
  apply copy_path_last in HP as [Hlen3 Hroot].
  rewrite length_rev, length_zip_with in Hlen3.
  rewrite length_rev, length_drop, length_app in Hlen2. cbn in Hlen2.
  split; [lia|].
  destruct (rev (zip st k)) as [|x l] eqn:Hz; [|rewrite Hroot; f_equal; lia].
  apply (f_equal length) in Hz. rewrite length_rev, length_zip_with in Hz.
  cbn in Hz. rewrite Hroot, Htop.
  destruct (rev (drop idx k)) as [|y l'] eqn:Hd; [|f_equal; lia].
  apply (f_equal length) in Hd. rewrite length_rev, length_drop in Hd. cbn in Hd.
  f_equal. lia.
Qed.

End allocation.

(** * Further properties of [Put] *)

(** [Put] makes exactly one node per byte of the key and one for the
    value, after the nodes of the store it was given, and returns the one
    made last: the new root is never null and never a node of the old
    version. *)
Theorem Put_allocates (h : heap) (root_ : ptr) (k : key) (v : value) :
  version_wf h root_ →
  ∃ h',
    Put h root_ k v = Ok (h', Some (length h + length k)) ∧
    h `prefix_of` h' ∧
    length h' = length h + length k + 1.
Proof.
  intros Hwf.
  destruct (Put_spec h root_ k v Hwf) as (h' & root' & HP & Hpre & _).
  destruct (Put_last _ _ _ _ _ _ HP) as [Hlen ->]. by exists h'.
Qed.

Lemma Put_allocates_witness :
  version_wf tab_heap tab_root ∧
  ∃ h',
    Put tab_heap tab_root (key_of "ac") (VString "x") =
      Ok (h', Some (length tab_heap + length (key_of "ac"))) ∧
    tab_heap `prefix_of` h' ∧
    length h' = length tab_heap + length (key_of "ac") + 1.
Proof.
  split; [exact tab_wf|].
  exact (Put_allocates tab_heap tab_root (key_of "ac") (VString "x") tab_wf).
Defined.

(** [Put] modifies no node of the version it is called on: in the store
    it returns, every lookup from the old root, at every key and type,
    gives what it gave before (a failing lookup included). *)
Theorem Put_old_version_unchanged (h : heap) (root_ : ptr) (k : key) (v : value) :
  version_wf h root_ →
  ∃ h' root',
    Put h root_ k v = Ok (h', root') ∧
    ∀ T k', Get T h' root_ k' = Get T h root_ k'.
Proof.
  intros Hwf.
  destruct (Put_spec h root_ k v Hwf) as (h' & root' & HP & Hpre & _).
  exists h', root'. split; [done|]. intros T k'. destruct Hwf. by apply Get_frame.
Qed.

Lemma Put_old_version_unchanged_witness :
  version_wf t1_heap t1_root ∧
  ∃ h' root',
    Put t1_heap t1_root (key_of "a") (VUInt32 9) = Ok (h', root') ∧
    ∀ T k', Get T h' t1_root k' = Get T t1_heap t1_root k'.
Proof.
  split; [exact t1_wf|].
  exact (Put_old_version_unchanged t1_heap t1_root (key_of "a") (VUInt32 9) t1_wf).
Defined.

Lemma Put_isolation_witness :
  version_wf tab_heap tab_root ∧ key_of "ab" ≠ key_of "ac" ∧
  Get TUInt32 tab_heap tab_root (key_of "ab") ≠ Fault ∧
  ∃ h' root',
    Put tab_heap tab_root (key_of "ac") (VString "x") = Ok (h', root') ∧
    Get TUInt32 h' root' (key_of "ab") = Get TUInt32 tab_heap tab_root (key_of "ab").
Proof.
  assert (key_of "ab" ≠ key_of "ac") as Hk by discriminate.
  assert (Get TUInt32 tab_heap tab_root (key_of "ab") ≠ Fault) as Hok by discriminate.
  split_and!; [exact tab_wf | exact Hk | exact Hok |].
  exact (Put_isolation TUInt32 tab_heap tab_root (key_of "ab") (key_of "ac")
           (VString "x") tab_wf Hk Hok).
Defined.

(** Sharing at the root: when the root exists and the key is not empty,
    the new root is a new node that differs from the old root only in
    the binding of the first byte of the key; its value and its other
    children are those of the old root, the same nodes. *)
Theorem Put_shares_siblings (h : heap) (a : addr) (n : TrieNode) (c : ascii)
    (k : key) (v : value) :
  version_wf h (Some a) → h !! a = Some n →
  ∃ h' b q,
    Put h (Some a) (c :: k) v = Ok (h', Some b) ∧
    length h ≤ b ∧
    h' !! a = Some n ∧
    h' !! b = Some (set_child n c q).
Proof.
  intros Hwf Hn.
  destruct (Put_spec h (Some a) (c :: k) v Hwf) as (h' & root' & HP & Hpre & _ & Hshape).
  destruct Hshape as (path & sfx & cur & top & leaf & ch & Hch & Hk & Hend & Hcp & _).
  destruct path as [|[x c0] path].
  { inversion Hch; subst. destruct Hend as [-> | ?]; done. }
  inversion Hch as [|a0 n0 c1 path0 q0 Hn0 Hch']; subst.
  injection Hk as <- _.
  inversion Hcp as [|a0 n' c1 path0 b q child Hn' Hlo Hb Hcp']; subst.
  pose proof (prefix_lookup_Some _ _ _ _ Hn Hpre) as Hn''.
  assert (n' = n) as -> by congruence.
  by exists h', b, q.
Qed.

Lemma Put_shares_siblings_witness :
  version_wf tab_heap (Some 2) ∧
  tab_heap !! 2 = Some (Branch {[ "a" := Some 1 ]}) ∧
  ∃ h' b q,
    Put tab_heap (Some 2) ("b" :: key_of "c") (VUInt64 3) = Ok (h', Some b) ∧
    length tab_heap ≤ b ∧
    h' !! 2 = Some (Branch {[ "a" := Some 1 ]}) ∧
    h' !! b = Some (set_child (Branch {[ "a" := Some 1 ]}) "b" q).
Proof.
  split; [exact tab_wf|]. split; [reflexivity|].
  exact (Put_shares_siblings tab_heap 2 (Branch {[ "a" := Some 1 ]}) "b"
           (key_of "c") (VUInt64 3) tab_wf eq_refl).
Defined.

(** Two [Put]s at different keys: both values are found in the last
    version, the second [Put] does not disturb the first. *)
Theorem Put_Put_other_key (h : heap) (root_ : ptr) (k1 k2 : key) (v1 v2 : value) :
  version_wf h root_ → k1 ≠ k2 →
  ∃ h1 r1 h2 r2,
    Put h root_ k1 v1 = Ok (h1, r1) ∧
    Put h1 r1 k2 v2 = Ok (h2, r2) ∧
    Get (type_of v1) h2 r2 k1 = Ok (Some v1) ∧
    Get (type_of v2) h2 r2 k2 = Ok (Some v2).
Proof.
  intros Hwf Hk.
  destruct (Put_spec h root_ k1 v1 Hwf) as (h1 & r1 & HP1 & _ & Hwf1 & Hshape1).
  destruct (Put_spec h1 r1 k2 v2 Hwf1) as (h2 & r2 & HP2 & _ & _ & Hshape2).
  pose proof (Put_shape_Get (type_of v1) _ _ _ _ _ _ Hshape1) as HG1.
  rewrite decide_True in HG1 by done.
  exists h1, r1, h2, r2. split_and!; try done.
  - rewrite (Put_other_key _ _ _ _ _ _ _ _ Hwf1 HP2 Hk); [done|]. by rewrite HG1.
  - rewrite (Put_shape_Get _ _ _ _ _ _ _ Hshape2). by rewrite decide_True.
Qed.

Lemma Put_Put_other_key_witness :
  version_wf empty_heap empty_root ∧ key_of "ab" ≠ key_of "a" ∧
  ∃ h1 r1 h2 r2,
    Put empty_heap empty_root (key_of "ab") (VUInt32 1) = Ok (h1, r1) ∧
    Put h1 r1 (key_of "a") (VString "x") = Ok (h2, r2) ∧
    Get TUInt32 h2 r2 (key_of "ab") = Ok (Some (VUInt32 1)) ∧
    Get TString h2 r2 (key_of "a") = Ok (Some (VString "x")).
Proof.
  assert (version_wf empty_heap empty_root) as Hwf.
  { split; [apply heap_wf_nil | apply ptr_wf_None]. }
  assert (key_of "ab" ≠ key_of "a") as Hk by discriminate.
  split_and!; [exact Hwf | exact Hk |].
  exact (Put_Put_other_key empty_heap empty_root (key_of "ab") (key_of "a")
           (VUInt32 1) (VString "x") Hwf Hk).
Defined.

(** * Tries without null edges *)

Section no_null.
Implicit Types (h : heap) (p q : ptr) (n : TrieNode) (k : key) (v : value).







End no_null.






(** * Further properties of [Remove] *)

Section Remove_more.
Implicit Types (h : heap) (p q : ptr) (n : TrieNode) (k : key) (v : value).

(** On a version, either the key is stored or [Remove] changes nothing. *)
Lemma stored_or_unchanged h root_ k :
  version_wf h root_ → stored h root_ k ∨ Remove h root_ k = Ok (h, root_).
Proof.
  intros [Hh Hroot].
  destruct (walk_total h k root_ Hh Hroot) as (idx & st & cur & Hw & Hcur).
  destruct (decide (idx = length k)) as [-> | Hidx];
    [|right; eapply Remove_unchanged; eauto].
  destruct cur as [a|]; [|right; eapply Remove_unchanged; eauto].
  destruct (deref_wf h a Hcur) as ([ch | ch v] & Ha & _).
  - right. eapply Remove_unchanged; eauto 10.
  - left. exists a, ch, v. split; [by exists st | done].
Qed.

(** A lookup whose key goes through a node the walk reaches continues
    from that node. *)
Lemma Get_reaches_Some T h k : ∀ p a s,
  reaches h p k (Some a) → Get T h p (k ++ s) = Get T h (Some a) s.
Proof.
  induction k as [|c k IH]; intros p a s Hr.
  - destruct Hr as [st Hw]. by simplify_eq/=.
  - apply reaches_cons_inv in Hr as (b & n & -> & Hn & Hr).
    cbn -[Get]. rewrite (Get_cons _ _ _ _ _ _ Hn). unfold child_or_null in Hr.
    destruct (children_ n !! c) as [p|] eqn:Hc; [by apply IH|].
    destruct Hr as [st Hw]. rewrite walk_null in Hw. simplify_eq/=.
Qed.

(** A clone holds the value of the ancestor and, but for one byte, its
    children: what is found below the path carries over to the roots. *)
Lemma copied_same_value T lo h h' path : ∀ p p' cur top s,
  h `prefix_of` h' → heap_wf h → ptr_wf h p →
  chain h p path cur → copied lo h' path p' top →
  (∀ k, k ≠ s → same_value (Get T h cur k) (Get T h' top k)) →
  ∀ k, k ≠ path.*2 ++ s → same_value (Get T h p k) (Get T h' p' k).
Proof.
  induction path as [|[x c] path IH]; intros p p' cur top s Hpre Hh Hp Hch Hcp Hag.
  - inversion Hch; subst. by inversion Hcp; subst.
  - inversion Hch as [|a n c0 path0 q Hn Hch']; subst.
    inversion Hcp as [|a0 n' c0 path0 b q' child Hn' Hlo Hb Hcp']; subst.
    assert (n' = n) as ->.
    { pose proof (prefix_lookup_Some _ _ _ _ Hn Hpre). congruence. }
    assert (node_wf h n) as Hnwf by (by eapply Hh).
    specialize (IH (child_or_null n c) q' cur top s Hpre Hh
                  (node_wf_child _ _ _ Hnwf) Hch' Hcp' Hag).
    intros k Hk. destruct k as [|c' k].
    { cbn. rewrite Hb, Hn. by destruct n. }
    rewrite (Get_cons _ _ _ _ _ _ Hn), (Get_cons _ _ _ _ _ _ Hb).
    rewrite children_set_child, lookup_insert.
    case_decide as Hc; [subst c'|].
    + assert (k ≠ path.*2 ++ s) as Hk' by (cbn in Hk; congruence).
      specialize (IH k Hk'). unfold child_or_null in IH.
      destruct (children_ n !! c) as [p0|] eqn:Hc; [done|].
      intros v. split; [done|]. intros HG%IH. by destruct k.
    + destruct (children_ n !! c') as [p0|] eqn:Hc'; [|done].
      rewrite (Get_frame T h h'); [done..|]. by eapply Hnwf.
Qed.

(** The number of nodes [Remove] makes: none when the key is not stored,
    else one per byte of the key, and one more when the value node has
    children. *)
Lemma Remove_length h root_ k h' root' :
  Remove h root_ k = Ok (h', root') →
  length h' ≤ length h + length k + 1.
Proof.
  unfold Remove. intros HR.
  destruct (walk h k 0 [] root_) as [[[idx st] cur]|] eqn:Hw; [|done].
  destruct (walk_chain _ _ _ _ _ _ Hw) as (_ & Hlen & _ & Hle & _).
  cbn -[deref] in HR. case_decide; [simplify_eq; lia|].
  destruct cur as [a|]; [|simplify_eq; lia].
  destruct (deref h (Some a)) as [n|]; [|done]. cbn -[make_end_node] in HR.
  destruct (is_value_node_ n); [|simplify_eq/=; lia]. cbn -[make_end_node] in HR.
  destruct (make_end_node h n) as [h1 e] eqn:Hmk.
  assert (length h1 ≤ length h + 1) as Hlen1.
  { unfold make_end_node in Hmk. case_decide; simplify_eq/=; [lia|].
    rewrite length_app. cbn. lia. }
  apply copy_path_last in HR as [Hlen' _].
  rewrite length_rev, length_zip_with in Hlen'. lia.
Qed.

End Remove_more.

(** [Remove] modifies no node of the version it is called on either: it
    always succeeds, it only adds nodes, at most one per byte of the key
    and one more, and every lookup from the old root gives what it gave
    before. *)
Theorem Remove_old_version_unchanged (h : heap) (root_ : ptr) (k : key) :
  version_wf h root_ →
  ∃ h' root',
    Remove h root_ k = Ok (h', root') ∧
    h `prefix_of` h' ∧
    length h' ≤ length h + length k + 1 ∧
    ∀ T k', Get T h' root_ k' = Get T h root_ k'.
Proof.
  intros Hwf.
  destruct (Remove_spec h root_ k Hwf) as (h' & root' & HR & Hpre & _).
  exists h', root'. split_and!; try done.
  - by eapply Remove_length.
  - intros T k'. destruct Hwf. by apply Get_frame.
Qed.

Lemma Remove_old_version_unchanged_witness :
  version_wf tab_heap tab_root ∧
  ∃ h' root',
    Remove tab_heap tab_root (key_of "ab") = Ok (h', root') ∧
    tab_heap `prefix_of` h' ∧
    length h' ≤ length tab_heap + length (key_of "ab") + 1 ∧
    ∀ T k', Get T h' tab_root k' = Get T tab_heap tab_root k'.
Proof.
  split; [exact tab_wf|].
  exact (Remove_old_version_unchanged tab_heap tab_root (key_of "ab") tab_wf).
Defined.

(** Removing a stored key that is not empty: in the returned version
    nothing is found at the key, at any type, and the lookup does not
    fail. *)
Theorem Get_Remove_stored (h : heap) (root_ : ptr) (k : key) :
  heap_wf h → stored h root_ k → k ≠ [] →
  ∃ h' root',
    Remove h root_ k = Ok (h', root') ∧
    ∀ T, Get T h' root' k = Ok None.
Proof.
  intros Hh Hst Hk.
  destruct (Remove_stored_Get TUInt32 h root_ k Hh Hst Hk) as (h' & root' & HR & _).
  exists h', root'. split; [done|]. intros T.
  destruct (Remove_stored_Get T h root_ k Hh Hst Hk) as (h'' & root'' & HR' & HG).
  congruence.
Qed.

Lemma Get_Remove_stored_witness :
  heap_wf tab_heap ∧ stored tab_heap tab_root (key_of "ab") ∧ key_of "ab" ≠ [] ∧
  ∃ h' root',
    Remove tab_heap tab_root (key_of "ab") = Ok (h', root') ∧
    ∀ T, Get T h' root' (key_of "ab") = Ok None.
Proof.
  assert (stored tab_heap tab_root (key_of "ab")) as Hst.
  { exists 0, ∅, (VUInt32 1). split; [|reflexivity].
    exists [Some 2; Some 1]. reflexivity. }
  assert (key_of "ab" ≠ []) as Hk by discriminate.
  split_and!; [exact (proj1 tab_wf) | exact Hst | exact Hk |].
  exact (Get_Remove_stored tab_heap tab_root (key_of "ab") (proj1 tab_wf) Hst Hk).
Defined.

(** Values at other keys, before and after [Remove]. *)
Lemma Remove_values_elsewhere (h : heap) (root_ : ptr) (k k' : key) :
  version_wf h root_ → k' ≠ k →
  ∃ h' root',
    Remove h root_ k = Ok (h', root') ∧
    ∀ T v, Get T h root_ k' = Ok (Some v) ↔ Get T h' root' k' = Ok (Some v).
Proof.
  intros Hwf Hk.
  destruct (stored_or_unchanged h root_ k Hwf) as [(a & ch & v0 & Hr & Ha) | HR];
    [|by exists h, root_].
  destruct Hwf as [Hh Hroot].
  destruct (Remove_present h root_ k a ch v0 Hh Hr Ha)
    as (h' & top & e & path & HR & Hpre & _ & _ & Hch & Hsnd & Hcp & He0 & He1).
  destruct (decide (k = [])) as [-> | Hne].
  - destruct Hr as [st Hw]. cbn in Hw. injection Hw as _ ->.
    exists h', (Some a). split; [done|]. intros T v.
    by rewrite (Get_frame T h h').
  - exists h', top. split; [done|]. intros T.
    eapply copied_same_value with (s := []); try done;
      [|by rewrite app_nil_r, Hsnd].
    intros [|c k1] Hk0; [done|]. rewrite (Get_cons _ _ _ _ _ _ Ha). cbn [children_].
    destruct (decide (ch = ∅)) as [-> | Hch0].
    + rewrite (He0 eq_refl), lookup_empty. by split.
    + destruct (He1 Hch0) as (b & -> & _ & Hb).
      rewrite (Get_cons _ _ _ _ _ _ Hb). cbn [children_].
      destruct (ch !! c) as [p0|] eqn:Hc; [|done].
      rewrite (Get_frame T h h'); [done..|]. by eapply (Hh a _ Ha c p0).
Qed.

(** [Remove] at one key neither loses nor creates a value at another
    key: a lookup at another key finds a value in the returned version
    exactly when it found that value before. *)
Theorem Remove_other_keys (h : heap) (root_ : ptr) (k k' : key) :
  version_wf h root_ → k' ≠ k →
  ∃ h' root',
    Remove h root_ k = Ok (h', root') ∧
    ∀ T v, Get T h root_ k' = Ok (Some v) ↔ Get T h' root' k' = Ok (Some v).
Proof. apply Remove_values_elsewhere. Qed.

Lemma Remove_other_keys_witness :
  version_wf tab_heap tab_root ∧ key_of "a" ≠ key_of "ab" ∧
  ∃ h' root',
    Remove tab_heap tab_root (key_of "ab") = Ok (h', root') ∧
    ∀ T v, Get T tab_heap tab_root (key_of "a") = Ok (Some v) ↔
           Get T h' root' (key_of "a") = Ok (Some v).
Proof.
  assert (key_of "a" ≠ key_of "ab") as Hk by discriminate.
  split_and!; [exact tab_wf | exact Hk |].
  exact (Remove_other_keys tab_heap tab_root (key_of "ab") (key_of "a") tab_wf Hk).
Defined.

(** Removing a key twice: for a key that is not empty, the second
    [Remove] finds nothing to remove and returns the version the first
    one returned, in the same store. *)
Theorem Remove_idempotent (h : heap) (root_ : ptr) (k : key) :
  version_wf h root_ → k ≠ [] →
  ∃ h' root',
    Remove h root_ k = Ok (h', root') ∧
    Remove h' root' k = Ok (h', root').
Proof.
  intros Hwf Hk.
  destruct (stored_or_unchanged h root_ k Hwf) as [Hst | HR];
    [|by exists h, root_].
  destruct (Remove_spec h root_ k Hwf) as (h' & root' & HR & _ & Hwf').
  exists h', root'. split; [done|].
  apply Remove_unless_stored; [done|].
  intros (T & v & HG)%stored_Get.
  destruct (Remove_stored_Get T h root_ k (proj1 Hwf) Hst Hk)
    as (h'' & root'' & HR' & HG').
  congruence.
Qed.

Lemma Remove_idempotent_witness :
  version_wf tab_heap tab_root ∧ key_of "ab" ≠ [] ∧
  ∃ h' root',
    Remove tab_heap tab_root (key_of "ab") = Ok (h', root') ∧
    Remove h' root' (key_of "ab") = Ok (h', root').
Proof.
  assert (key_of "ab" ≠ []) as Hk by discriminate.
  split_and!; [exact tab_wf | exact Hk |].
  exact (Remove_idempotent tab_heap tab_root (key_of "ab") tab_wf Hk).
Defined.

(** [Remove] with the empty key returns the root it was called on,
    whether or not the root holds a value: the returned version reads
    the same as the old one at every key. *)
Theorem Remove_empty_key_same_root (h : heap) (root_ : ptr) :
  version_wf h root_ →
  ∃ h',
    Remove h root_ [] = Ok (h', root_) ∧
    ∀ T k, Get T h' root_ k = Get T h root_ k.
Proof.
  intros Hwf.
  destruct (stored_or_unchanged h root_ [] Hwf) as [(a & ch & v0 & Hr & Ha) | HR];
    [|by exists h].
  destruct Hwf as [Hh Hroot].
  destruct (Remove_present h root_ [] a ch v0 Hh Hr Ha)
    as (h' & top & e & path & HR & Hpre & _).
  destruct Hr as [st Hw]. cbn in Hw. injection Hw as _ ->.
  exists h'. split; [done|]. intros T k. by apply Get_frame.
Qed.

Lemma Remove_empty_key_same_root_witness :
  version_wf t1_heap t1_root ∧
  ∃ h',
    Remove t1_heap t1_root [] = Ok (h', t1_root) ∧
    ∀ T k, Get T h' t1_root k = Get T t1_heap t1_root k.
Proof.
  split; [exact t1_wf|].
  exact (Remove_empty_key_same_root t1_heap t1_root t1_wf).
Defined.

Lemma Remove_root_not_null_witness :
  heap_wf tab_heap ∧ stored tab_heap tab_root (key_of "ab") ∧ key_of "ab" ≠ [] ∧
  ∃ h' b n,
    Remove tab_heap tab_root (key_of "ab") = Ok (h', Some b) ∧
    length tab_heap ≤ b ∧
    h' !! b = Some n ∧ children_ n ≠ ∅.
Proof.
  assert (stored tab_heap tab_root (key_of "ab")) as Hst.
  { exists 0, ∅, (VUInt32 1). split; [|reflexivity].
    exists [Some 2; Some 1]. reflexivity. }
  assert (key_of "ab" ≠ []) as Hk by discriminate.
  split_and!; [exact (proj1 tab_wf) | exact Hst | exact Hk |].
  exact (Remove_root_not_null tab_heap tab_root (key_of "ab") (proj1 tab_wf) Hst Hk).
Defined.

(** After [Remove] of a stored key that is not empty and whose value node
    has no children, the last byte of the key is bound to null, and a
    lookup of any longer key that starts with the removed key
    dereferences that null pointer, where the old version found
    nothing. *)
Theorem Get_faults_below_removed_leaf (h : heap) (root_ : ptr) (k : key)
    (a : addr) (v : value) :
  heap_wf h → reaches h root_ k (Some a) → h !! a = Some (WithValue ∅ v) →
  k ≠ [] →
  ∃ h' root',
    Remove h root_ k = Ok (h', root') ∧
    ∀ T c k',
      Get T h root_ (k ++ c :: k') = Ok None ∧
      Get T h' root' (k ++ c :: k') = Fault.
Proof.
  intros Hh Hr Ha Hk.
  destruct (Remove_present h root_ k a ∅ v Hh Hr Ha)
    as (h' & top & e & path & HR & _ & _ & _ & _ & Hsnd & Hcp & He0 & _).
  rewrite decide_False in HR by done. rewrite (He0 eq_refl) in Hcp.
  exists h', top. split; [done|]. intros T c k'. split.
  - rewrite (Get_reaches_Some _ _ _ _ _ _ Hr), (Get_cons _ _ _ _ _ _ Ha). cbn.
    by rewrite lookup_empty.
  - by rewrite <- Hsnd, (copied_Get _ _ _ _ _ _ _ Hcp).
Qed.

Lemma Get_faults_below_removed_leaf_witness :
  heap_wf tab_heap ∧ reaches tab_heap tab_root (key_of "ab") (Some 0) ∧
  tab_heap !! 0 = Some (WithValue ∅ (VUInt32 1)) ∧ key_of "ab" ≠ [] ∧
  ∃ h' root',
    Remove tab_heap tab_root (key_of "ab") = Ok (h', root') ∧
    ∀ T c k',
      Get T tab_heap tab_root (key_of "ab" ++ c :: k') = Ok None ∧
      Get T h' root' (key_of "ab" ++ c :: k') = Fault.
Proof.
  assert (reaches tab_heap tab_root (key_of "ab") (Some 0)) as Hr.
  { exists [Some 2; Some 1]. reflexivity. }
  assert (key_of "ab" ≠ []) as Hk by discriminate.
  split_and!; [exact (proj1 tab_wf) | exact Hr | reflexivity | exact Hk |].
  exact (Get_faults_below_removed_leaf tab_heap tab_root (key_of "ab") 0 (VUInt32 1)
           (proj1 tab_wf) Hr eq_refl Hk).
Defined.

(** * Values at other keys *)

(** Values at other keys, before and after [Put]. *)
Lemma Put_values_elsewhere (h : heap) (root_ : ptr) (k k' : key) (v : value) :
  version_wf h root_ → k' ≠ k →
  ∃ h' root',
    Put h root_ k v = Ok (h', root') ∧
    ∀ T v', Get T h root_ k' = Ok (Some v') ↔ Get T h' root' k' = Ok (Some v').
Proof.
  intros Hwf Hk.
  destruct (Put_spec h root_ k v Hwf) as (h' & root' & HP & Hpre & _ & Hshape).
  exists h', root'. split; [done|]. intros T.
  destruct Hwf as [Hh Hroot].
  destruct Hshape
    as (path & sfx & cur & top & leaf & ch & Hch & -> & Hend & Hcp & Hwr & Hl & Hch0 & Hch1).
  eapply copied_same_value; try done.
  pose proof (chain_end_wf _ _ _ _ Hh Hroot Hch) as Hcur.
  destruct cur as [a|].
  - destruct Hend as [-> | ?]; [|done]. inversion Hwr; subst.
    destruct (deref_wf h a Hcur) as (n & Hn & _).
    rewrite (Hch1 a n eq_refl Hn) in Hl.
    intros [|c k0] Hk0; [done|].
    rewrite (Get_cons _ _ _ _ _ _ Hn), (Get_cons _ _ _ _ _ _ Hl). cbn [children_].
    destruct (children_ n !! c) as [p0|] eqn:Hc; [|done].
    rewrite (Get_frame T h h'); [done..|]. by eapply (Hh a n Hn c p0).
  - rewrite (Hch0 eq_refl) in Hl. intros k0 Hk0 v'.
    rewrite (wrapped_off T _ _ _ _ _ _ Hwr Hl Hk0). split; [|done].
    by destruct k0.
Qed.

(** [Put] at one key neither loses nor creates a value at another key,
    whether or not the lookup in the old version fails: a lookup at
    another key finds a value in the returned version exactly when it
    found that value before. *)
Theorem Put_other_keys (h : heap) (root_ : ptr) (k k' : key) (v : value) :
  version_wf h root_ → k' ≠ k →
  ∃ h' root',
    Put h root_ k v = Ok (h', root') ∧
    ∀ T v', Get T h root_ k' = Ok (Some v') ↔ Get T h' root' k' = Ok (Some v').
Proof. apply Put_values_elsewhere. Qed.

Lemma Put_other_keys_witness :
  version_wf tab_heap tab_root ∧ key_of "ab" ≠ key_of "a" ∧
  ∃ h' root',
    Put tab_heap tab_root (key_of "a") (VString "x") = Ok (h', root') ∧
    ∀ T v', Get T tab_heap tab_root (key_of "ab") = Ok (Some v') ↔
            Get T h' root' (key_of "ab") = Ok (Some v').
Proof.
  assert (key_of "ab" ≠ key_of "a") as Hk by discriminate.
  split_and!; [exact tab_wf | exact Hk |].
  exact (Put_other_keys tab_heap tab_root (key_of "a") (key_of "ab") (VString "x")
           tab_wf Hk).
Defined.

(** [Put] then [Remove] of the same key, when the key is not empty: the
    last version finds nothing at the key and, at every other key,
    exactly the values of the version the two started from. *)
Theorem Put_then_Remove (h : heap) (root_ : ptr) (k : key) (v : value) :
  version_wf h root_ → k ≠ [] →
  ∃ h1 r1 h2 r2,
    Put h root_ k v = Ok (h1, r1) ∧
    Remove h1 r1 k = Ok (h2, r2) ∧
    (∀ T, Get T h2 r2 k = Ok None) ∧
    ∀ T k' v', k' ≠ k →
      (Get T h root_ k' = Ok (Some v') ↔ Get T h2 r2 k' = Ok (Some v')).
Proof.
  intros Hwf Hk.
  destruct (Put_spec h root_ k v Hwf) as (h1 & r1 & HP & _ & Hwf1 & Hshape).
  destruct (Put_shape_reaches _ _ _ _ _ _ Hshape) as (leaf & ch & Hr & Hl).
  assert (stored h1 r1 k) as Hst by (by exists leaf, ch, v).
  destruct (Remove_spec h1 r1 k Hwf1) as (h2 & r2 & HR & _).
  exists h1, r1, h2, r2. split_and!; try done.
  - intros T.
    destruct (Remove_stored_Get T h1 r1 k (proj1 Hwf1) Hst Hk) as (h2' & r2' & HR' & HG).
    congruence.
  - intros T k' v' Hk'.
    destruct (Put_values_elsewhere h root_ k k' v Hwf Hk') as (h1' & r1' & HP' & HV1).
    destruct (Remove_values_elsewhere h1 r1 k k' Hwf1 Hk') as (h2' & r2' & HR' & HV2).
    assert (h1' = h1 ∧ r1' = r1) as [-> ->] by (split; congruence).
    assert (h2' = h2 ∧ r2' = r2) as [-> ->] by (split; congruence).
    by rewrite HV1, HV2.
Qed.

Lemma Put_then_Remove_witness :
  version_wf t1_heap t1_root ∧ key_of "ab" ≠ [] ∧
  ∃ h1 r1 h2 r2,
    Put t1_heap t1_root (key_of "ab") (VUInt32 2) = Ok (h1, r1) ∧
    Remove h1 r1 (key_of "ab") = Ok (h2, r2) ∧
    (∀ T, Get T h2 r2 (key_of "ab") = Ok None) ∧
    ∀ T k' v', k' ≠ key_of "ab" →
      (Get T t1_heap t1_root k' = Ok (Some v') ↔ Get T h2 r2 k' = Ok (Some v')).
Proof.
  assert (key_of "ab" ≠ []) as Hk by discriminate.
  split_and!; [exact t1_wf | exact Hk |].
  exact (Put_then_Remove t1_heap t1_root (key_of "ab") (VUInt32 2) t1_wf Hk).
Defined.
